(** * The mode checker and the Apalache front end

    A shallow embedding of [checkModes], with its two visitors
    [ModeCheckerVisitor] and [ModeFinderVisitor] and the mode order behind
    [moreGeneralMode], and of the [check] command of quintVerifier.ts.
    Mutable visitor objects become records that are passed along, and a
    JavaScript [throw] becomes the [Throw] completion of a small error
    monad. *)

From Stdlib Require Import ZArith String Ascii List Bool Lia.
From stdpp Require Import base option list gmap strings pretty.

Open Scope Z_scope.
#[local] Set Warnings "-register-all,-clear-no-such-hyp".

(** ** Completions: normal return or a thrown exception *)

Inductive JsError : Type :=
| Error (msg : string)
| TypeError (msg : string)
| SyntaxError (msg : string).

Inductive Completion (A : Type) : Type :=
| Normal (a : A)
| Throw (e : JsError).
Arguments Normal {A} a.
Arguments Throw {A} e.

#[global] Instance Completion_ret : MRet Completion := fun A a => Normal a.
#[global] Instance Completion_bind : MBind Completion :=
  fun A B k c => match c with Normal a => k a | Throw e => Throw e end.

Definition returns {A} (c : Completion A) : Prop := exists a, c = Normal a.

(** [Array.prototype.forEach] with a callback that updates an accumulator
    and may throw: the elements are visited in order and the first exception
    ends the loop. *)
Fixpoint forEach {A S} (f : S -> A -> Completion S) (l : list A) (s : S)
  : Completion S :=
  match l with
  | [] => Normal s
  | x :: l' => s' ← f s x; forEach f l' s'
  end.

(** ** The mode lattice *)

(** [OpQualifier] is the string-literal union of tntIr.ts; the six literals
    are the ones listed in [modeOrder]. *)
Inductive OpQualifier : Type :=
| staticval | staticdef | val | def | action | temporal.

#[global] Instance OpQualifier_eq_dec : EqDecision OpQualifier.
Proof. solve_decision. Defined.

(** The text a template literal prints for a qualifier. *)
Definition qualifierToString (q : OpQualifier) : string :=
  match q with
  | staticval => "staticval" | staticdef => "staticdef"
  | val => "val" | def => "def"
  | action => "action" | temporal => "temporal"
  end.

(** [Array.prototype.findIndex]: position of the first element satisfying
    the predicate, [-1] when there is none. *)
Fixpoint findIndexFrom {A} (p : A -> bool) (l : list A) (i : Z) : Z :=
  match l with
  | [] => -1
  | x :: l' => if p x then i else findIndexFrom p l' (i + 1)
  end.

Definition findIndex {A} (p : A -> bool) (l : list A) : Z :=
  findIndexFrom p l 0.

Definition modeOrder : list OpQualifier :=
  [staticval; staticdef; val; def; action; temporal].

Definition moreGeneralMode (m1 m2 : OpQualifier) : OpQualifier :=
  let p1 := findIndex (fun elem => bool_decide (elem = m1)) modeOrder in
  let p2 := findIndex (fun elem => bool_decide (elem = m2)) modeOrder in
  if p1 >? p2 then m1 else m2.

(** Position of a qualifier in the order staticval < staticdef < val < def
    < action < temporal, as the specification words it. *)
Definition position (q : OpQualifier) : Z :=
  match q with
  | staticval => 0 | staticdef => 1 | val => 2
  | def => 3 | action => 4 | temporal => 5
  end.

(** The relation induced by [moreGeneralMode]: [a] is at most as general
    as [b] when the more general of the two is [b]. *)
Definition modeLe (a b : OpQualifier) : Prop := moreGeneralMode a b = b.

(** ** Effects *)

(** A JavaScript object is known by its reference: [Set.prototype.has] and
    [Set.prototype.add] compare objects by identity, not by contents.  Each
    [Variables] object therefore carries the reference under which it is
    stored; two values with the same [ref] stand for the same object. *)
Definition ref : Type := positive.

(** Modelled from the spec: the type [Variables] of effects/base.ts is not
    part of the sources at hand.  Section 3 describes it as either a
    concrete set of variable names or a union of several such payloads; the
    field names [kind] and [variables] are the ones modeChecker.ts reads. *)
Inductive Variables : Type :=
| VConcrete (self : ref) (vars : list string)
| VUnion (self : ref) (variables : list Variables).

Definition refOf (v : Variables) : ref :=
  match v with VConcrete r _ => r | VUnion r _ => r end.

(** [v.kind === 'union'] *)
Definition isUnion (v : Variables) : bool :=
  match v with VUnion _ _ => true | VConcrete _ _ => false end.

(** [v.variables]; only read after [v.kind === 'union'] has been tested. *)
Definition variablesOf (v : Variables) : list Variables :=
  match v with VUnion _ variables => variables | VConcrete _ _ => [] end.

(** Modelled from the spec: [ConcreteEffect], a pair of [Variables] values
    [read] and [update] (section 3). *)
Record ConcreteEffect : Type := mkConcrete {
  read : Variables;
  update : Variables
}.

(** Modelled from the spec: [Effect], the tagged union of [ConcreteEffect]
    and [ArrowEffect]; an arrow has an ordered list of parameter effects
    and a result effect (section 3). *)
Inductive Effect : Type :=
| EConcrete (c : ConcreteEffect)
| EArrow (params : list Effect) (result : Effect).

(** [Set<Variables>]: a set of object references. *)
Abbreviation VariablesSet := (gset ref).

(** [s.has(v)] *)
Definition has (s : VariablesSet) (v : Variables) : bool :=
  bool_decide (refOf v ∈ s).

(** [Set.prototype.add] with its receiver made explicit.  Called as a method
    [s.add(v)] the receiver is the set; passed around as a bare function
    value, as in [xs.forEach(s.add)], it is called with an undefined
    receiver and throws a TypeError. *)
Definition Set_prototype_add (this : option VariablesSet) (v : Variables)
  : Completion VariablesSet :=
  match this with
  | Some s => Normal ({[ refOf v ]} ∪ s)
  | None =>
      Throw (TypeError
        "Method Set.prototype.add called on incompatible receiver undefined")
  end.

(** ** The effect visitor interface and its walker *)

Module EffectVisitor.
(** The [exit] hooks of the interface [EffectVisitor], over a visitor
    state [S]. *)
Class t (S : Type) : Type := {
  exitConcrete : S -> ConcreteEffect -> Completion S;
  exitArrow : S -> list Effect -> Effect -> Completion S
}.
End EffectVisitor.

(** Modelled from the spec: [walkEffect] of effects/effectVisitor.ts is not
    part of the sources at hand.  Section 4.2 describes a fold over one
    effect tree, visited bottom-up (children before parents): at an arrow
    the parameters are walked in order, then the result, then the arrow's
    own exit hook runs; at a concrete effect the concrete exit hook runs. *)
Fixpoint walkEffect {S} {V : EffectVisitor.t S} (visitor : S) (effect : Effect)
  : Completion S :=
  match effect with
  | EConcrete c => EffectVisitor.exitConcrete visitor c
  | EArrow params result =>
      v1 ← (fix walkParams (ps : list Effect) (v : S) : Completion S :=
              match ps with
              | [] => Normal v
              | p :: ps' => v' ← walkEffect v p; walkParams ps' v'
              end) params visitor;
      v2 ← walkEffect v1 result;
      EffectVisitor.exitArrow v2 params result
  end.

(** The parameter loop of [walkEffect], named. *)
Definition walkParams {S} {V : EffectVisitor.t S} (ps : list Effect) (v : S)
  : Completion S :=
  forEach walkEffect ps v.

(** The modes a parameterless operator can have: the four that are neither
    [staticdef] nor [def]. *)
Definition parameterless (m : OpQualifier) : Prop :=
  m = staticval \/ m = val \/ m = action \/ m = temporal.

(** The number of arrow nodes of an effect tree. *)
Fixpoint arrowNodes (effect : Effect) : nat :=
  match effect with
  | EConcrete _ => 0%nat
  | EArrow params result =>
      S ((fix sum (ps : list Effect) : nat :=
            match ps with
            | [] => 0%nat
            | p :: ps' => (arrowNodes p + sum ps')%nat
            end) params + arrowNodes result)
  end.

(** ** The mode finder *)

Section ModeChecker.

(** The classification predicates of effects/base.ts, consumed as given. *)
Context (isAction isTemporal isState : ConcreteEffect -> bool).

Record ModeFinderVisitor : Type := mkModeFinder {
  currentMode : OpQualifier
}.

(** [new ModeFinderVisitor()] *)
Definition newModeFinderVisitor : ModeFinderVisitor :=
  {| currentMode := staticval |}.

(** The mode the body of [exitConcrete] assigns to its local [mode]. *)
Definition concreteMode (effect : ConcreteEffect) : OpQualifier :=
  if isAction effect then action
  else if isTemporal effect then temporal
  else if isState effect then val
  else staticval.

Definition exitConcrete (this : ModeFinderVisitor) (effect : ConcreteEffect)
  : ModeFinderVisitor :=
  let mode := concreteMode effect in
  {| currentMode := moreGeneralMode (currentMode this) mode |}.

(** The callback of [effect.params.forEach] in [exitArrow]. *)
Definition addParamReads (paramReads : VariablesSet) (p : Effect)
  : Completion VariablesSet :=
  match p with
  | EConcrete c =>
      if isUnion (read c)
      then (* p.read.variables.forEach(paramReads.add) *)
        forEach (fun _ v => Set_prototype_add None v)
                (variablesOf (read c)) paramReads
      else (* paramReads.add(p.read) *)
        Set_prototype_add (Some paramReads) (read c)
  | EArrow _ _ => Normal paramReads
  end.

Definition exitArrow (this : ModeFinderVisitor) (params : list Effect)
  (result : Effect) : Completion ModeFinderVisitor :=
  if bool_decide (currentMode this <> staticdef)
     && bool_decide (currentMode this <> def)
  then Normal this
  else
    paramReads ← forEach addParamReads params ∅;
    let this := {| currentMode := staticdef |} in
    match result with
    | EConcrete r =>
        if isUnion (read r)
           && negb (forallb (fun v => has paramReads v) (variablesOf (read r)))
        then Normal {| currentMode := def |}
        else if negb (has paramReads (read r))
        then Normal {| currentMode := def |}
        else Normal this
    | EArrow _ _ => Normal this
    end.

#[local] Instance ModeFinder_visitor : EffectVisitor.t ModeFinderVisitor := {
  EffectVisitor.exitConcrete this effect := Normal (exitConcrete this effect);
  EffectVisitor.exitArrow := exitArrow
}.

(** The reducer: the mode left in the accumulator after folding one effect
    from a fresh accumulator. *)
Definition reduce (effect : Effect) : Completion OpQualifier :=
  finder ← walkEffect newModeFinderVisitor effect;
  Normal (currentMode finder).

(** The classification of section 4.2, first match wins. *)
Inductive classifiedAs (effect : ConcreteEffect) : OpQualifier -> Prop :=
| classified_action :
    isAction effect = true -> classifiedAs effect action
| classified_temporal :
    isAction effect = false -> isTemporal effect = true ->
    classifiedAs effect temporal
| classified_val :
    isAction effect = false -> isTemporal effect = false ->
    isState effect = true -> classifiedAs effect val
| classified_staticval :
    isAction effect = false -> isTemporal effect = false ->
    isState effect = false -> classifiedAs effect staticval.

(** An observer around the mode finder: it does what the mode finder does
    and also writes down, at every arrow node, the accumulator the node is
    visited with and the accumulator it leaves. *)
Definition Observed : Type :=
  ModeFinderVisitor * list (OpQualifier * OpQualifier).

#[local] Instance Observed_visitor : EffectVisitor.t Observed := {
  EffectVisitor.exitConcrete s effect :=
    Normal (exitConcrete (fst s) effect, snd s);
  EffectVisitor.exitArrow s params result :=
    this ← exitArrow (fst s) params result;
    Normal (this, snd s ++ [(currentMode (fst s), currentMode this)])
}.

(** What the observer sees at an arrow node that did nothing. *)
Definition untouched (entry : OpQualifier * OpQualifier) : Prop :=
  parameterless (fst entry) /\ snd entry = fst entry.

(** The invariant of the walk: from a parameterless accumulator the walk
    returns, the accumulator stays parameterless, every arrow node is seen
    with a parameterless accumulator and leaves it as it is, and the plain
    mode finder ends in the same state as the observed one. *)
Definition walkInvariant (effect : Effect) : Prop :=
  forall (this : ModeFinderVisitor) (log : list (OpQualifier * OpQualifier)),
    parameterless (currentMode this) ->
    exists this' entries,
      walkEffect (V := Observed_visitor) (this, log) effect
      = Normal (this', log ++ entries)
      /\ walkEffect (V := ModeFinder_visitor) this effect = Normal this'
      /\ parameterless (currentMode this')
      /\ Forall untouched entries
      /\ length entries = arrowNodes effect.

(** A parameter whose read payload [exitArrow] can add to its set: any
    parameter except a concrete one whose read payload is a union with
    members, on which the unbound [paramReads.add] is called. *)
Definition addable (p : Effect) : Prop :=
  match p with
  | EConcrete c => isUnion (read c) = false \/ variablesOf (read c) = []
  | EArrow _ _ => True
  end.

(** The set [P] of the specification: the read payloads of the concrete
    parameters, a union-shaped payload counted through its members. *)
Definition payloadRefs (v : Variables) : VariablesSet :=
  match v with
  | VUnion _ variables => list_to_set (map refOf variables)
  | VConcrete self _ => {[ self ]}
  end.

Fixpoint paramReadsSpec (params : list Effect) : VariablesSet :=
  match params with
  | [] => ∅
  | EConcrete c :: ps => payloadRefs (read c) ∪ paramReadsSpec ps
  | EArrow _ _ :: ps => paramReadsSpec ps
  end.

(** When the specification promotes an arrow node to [def]. *)
Definition promotesSpec (params : list Effect) (r : ConcreteEffect) : Prop :=
  match read r with
  | VUnion _ variables =>
      exists v, v ∈ variables /\ refOf v ∉ paramReadsSpec params
  | VConcrete self _ => self ∉ paramReadsSpec params
  end.

(** ** The mode checker *)

Inductive ErrorTree : Type := mkErrorTree {
  location : string;
  message : string;
  children : list ErrorTree
}.

(** Modelled from the spec: [TntOpDef] of tntIr.ts is not part of the
    sources at hand; a definition has an identifier, a name and a declared
    qualifier (section 3), read here as [def.id], [def.name] and
    [def.qualifier]. *)
Record TntOpDef : Type := mkOpDef {
  id : Z;
  name : string;
  qualifier : OpQualifier
}.

(** Modelled from the spec: [TntModule], the ordered sequence of the
    module's operator definitions (section 6): the definitions of kind
    [def], each operator bound inside a body counted as a definition of
    its own (section 4.4), in the order the walk hands them to
    [exitOpDef]. *)
Record TntModule : Type := mkModule {
  defs : list TntOpDef
}.

(** [definitionToString] of IRprinting.ts, consumed as given. *)
Context (definitionToString : TntOpDef -> string).

(** The two [Map]s are kept as finite maps from identifiers to values;
    the order in which a [Map] lists its entries is not part of the
    model. *)
Record ModeCheckerVisitor : Type := mkModeChecker {
  errors : gmap Z ErrorTree;
  suggestions : gmap Z OpQualifier;
  effects : gmap Z Effect;
  modeFinderVisitor : ModeFinderVisitor
}.

(** [new ModeCheckerVisitor(effects)] *)
Definition newModeCheckerVisitor (effects : gmap Z Effect)
  : ModeCheckerVisitor :=
  {| errors := ∅; suggestions := ∅; effects := effects;
     modeFinderVisitor := newModeFinderVisitor |}.

Definition modeError (opdef : TntOpDef) (mode : OpQualifier) : ErrorTree :=
  {| location := "Checking modes for " +:+ definitionToString opdef;
     message := "Expected " +:+ qualifierToString mode +:+ " mode, found: "
                +:+ qualifierToString (qualifier opdef);
     children := [] |}.

Definition exitOpDef (this : ModeCheckerVisitor) (opdef : TntOpDef)
  : Completion ModeCheckerVisitor :=
  match effects this !! id opdef with
  | None => Throw (Error ("effect not found for definition " +:+ name opdef))
  | Some effect =>
      finder ← walkEffect (modeFinderVisitor this) effect;
      let mode := currentMode finder in
      let this :=
        {| errors := errors this; suggestions := suggestions this;
           effects := effects this;
           modeFinderVisitor := {| currentMode := staticval |} |} in
      if bool_decide (mode = qualifier opdef) then Normal this
      else
        let generalMode := moreGeneralMode mode (qualifier opdef) in
        if bool_decide (generalMode = mode) then
          Normal {| errors := <[id opdef := modeError opdef mode]> (errors this);
                    suggestions := suggestions this;
                    effects := effects this;
                    modeFinderVisitor := modeFinderVisitor this |}
        else if bool_decide (generalMode = qualifier opdef) then
          Normal {| errors := errors this;
                    suggestions := <[id opdef := mode]> (suggestions this);
                    effects := effects this;
                    modeFinderVisitor := modeFinderVisitor this |}
        else Normal this
  end.

(** Modelled from the spec: [walkModule] of IRVisitor.ts is not part of the
    sources at hand.  Section 4.4: every definition of the module is
    visited in document order, each bound operator as its own definition;
    an exception thrown by the visitor ends the walk. *)
Definition walkModule (visitor : ModeCheckerVisitor) (tntModule : TntModule)
  : Completion ModeCheckerVisitor :=
  forEach exitOpDef (defs tntModule) visitor.

Definition checkModes (tntModule : TntModule) (effects : gmap Z Effect)
  : Completion (gmap Z ErrorTree + gmap Z OpQualifier) :=
  visitor ← walkModule (newModeCheckerVisitor effects) tntModule;
  if Z.of_nat (size (errors visitor)) >? 0
  then Normal (inl (errors visitor))
  else Normal (inr (suggestions visitor)).

(** What the checker decides for one definition, read off the
    specification (section 4.3): the declared qualifier is too weak, or
    stronger than necessary, for the inferred mode. *)
Definition tooWeak (inferred declared : OpQualifier) : Prop :=
  inferred <> declared /\ moreGeneralMode inferred declared = inferred.

Definition tooStrong (inferred declared : OpQualifier) : Prop :=
  inferred <> declared /\ moreGeneralMode inferred declared = declared.

(** A definition of the module produces an error, or a suggestion, when its
    effect reduces to a mode for which its declared qualifier is too weak,
    or too strong. *)
Definition producesError (effects : gmap Z Effect) (d : TntOpDef) : Prop :=
  exists effect inferred,
    effects !! id d = Some effect /\ reduce effect = Normal inferred
    /\ tooWeak inferred (qualifier d).

Definition producesSuggestion (effects : gmap Z Effect) (d : TntOpDef) : Prop :=
  exists effect inferred,
    effects !! id d = Some effect /\ reduce effect = Normal inferred
    /\ tooStrong inferred (qualifier d).

(** *** The checker as a pure aggregation

    Sections 4.3 and 4.4 and the design notes describe the checker without
    a visitor: each definition is judged on the mode its own effect reduces
    to from a fresh accumulator, and the judgements are gathered into the
    two maps. *)
Definition judge (opdef : TntOpDef) (inferred : OpQualifier)
  (out : gmap Z ErrorTree * gmap Z OpQualifier)
  : gmap Z ErrorTree * gmap Z OpQualifier :=
  if bool_decide (inferred = qualifier opdef) then out
  else if bool_decide (moreGeneralMode inferred (qualifier opdef) = inferred)
  then (<[id opdef := modeError opdef inferred]> (fst out), snd out)
  else (fst out, <[id opdef := inferred]> (snd out)).

Fixpoint checkDefinitions (effects : gmap Z Effect) (ds : list TntOpDef)
  (out : gmap Z ErrorTree * gmap Z OpQualifier)
  : Completion (gmap Z ErrorTree * gmap Z OpQualifier) :=
  match ds with
  | [] => Normal out
  | d :: ds' =>
      match effects !! id d with
      | None => Throw (Error ("effect not found for definition " +:+ name d))
      | Some effect =>
          inferred ← reduce effect;
          checkDefinitions effects ds' (judge d inferred out)
      end
  end.

Definition checkModesPure (tntModule : TntModule) (effects : gmap Z Effect)
  : Completion (gmap Z ErrorTree + gmap Z OpQualifier) :=
  out ← checkDefinitions effects (defs tntModule) (∅, ∅);
  if bool_decide (fst out = ∅) then Normal (inr (snd out))
  else Normal (inl (fst out)).

(** Two invocations of [checkModes] in a row, on the same arguments. *)
Definition checkModesTwice (tntModule : TntModule) (effects : gmap Z Effect)
  : Completion ((gmap Z ErrorTree + gmap Z OpQualifier)
                * (gmap Z ErrorTree + gmap Z OpQualifier)) :=
  first ← checkModes tntModule effects;
  second ← checkModes tntModule effects;
  Normal (first, second).

End ModeChecker.

(** ** The Apalache front end (quintVerifier.ts) *)

Module Verifier.

(** Values of type [any]: what [JSON.parse] returns, and [undefined] for a
    property that is not there.  Numbers are kept to the integers. *)
Inductive any : Type :=
| JUndefined
| JNull
| JBool (b : bool)
| JNumber (n : Z)
| JString (s : string)
| JArray (elements : list any)
| JObject (fields : list (string * any)).

(** [fields[p]] of an object literal: the value of the first field of that
    name. *)
Fixpoint lookupField (p : string) (fields : list (string * any))
  : option any :=
  match fields with
  | [] => None
  | (k, v) :: fields' => if String.eqb k p then Some v else lookupField p fields'
  end.

(** Property access [o.p] for the property names this file reads
    ([pass_name], [error_data], [checking_result], [counterexamples],
    [msg]): it throws on [undefined] and [null], and gives [undefined]
    where there is no such property. *)
Definition getProp (o : any) (p : string) : Completion any :=
  match o with
  | JUndefined =>
      Throw (TypeError ("Cannot read properties of undefined (reading '"
                        +:+ p +:+ "')"))
  | JNull =>
      Throw (TypeError ("Cannot read properties of null (reading '"
                        +:+ p +:+ "')"))
  | JObject fields => Normal (default JUndefined (lookupField p fields))
  | _ => Normal JUndefined
  end.

(** [v === s] for a string literal [s] (a [case] label of a [switch]). *)
Definition isString (v : any) (s : string) : bool :=
  match v with JString s' => String.eqb s' s | _ => false end.

(** The text a template literal prints for a value.  It is the text of
    JavaScript on [undefined], [null], the booleans, strings and integers
    that print without an exponent; the theorems rely on it for strings
    and [undefined] only.  (An object that has a field named toString of
    its own does not print: there the template literal throws.) *)
Fixpoint toString (v : any) : string :=
  match v with
  | JUndefined => "undefined"
  | JNull => "null"
  | JBool true => "true"
  | JBool false => "false"
  | JNumber n => pretty n
  | JString s => s
  | JArray elements =>
      (fix join (l : list any) : string :=
         match l with
         | [] => ""
         | [x] => match x with JUndefined | JNull => "" | _ => toString x end
         | x :: l' =>
             match x with JUndefined | JNull => "" | _ => toString x end
             +:+ "," +:+ join l'
         end) elements
  | JObject _ => "[object Object]"
  end.

(** The structure used to report errors.  [explanation] receives values
    read out of parsed JSON, and [traces] is optional and receives them
    too, so both are kept as [any]; the [ErrorMessage] objects of the
    parser front end are kept as [any] as well. *)
Record VerifyError : Type := mkVerifyError {
  explanation : any;
  errors : list any;
  traces : any
}.

(** [Either<VerifyError, T>]: [inl] is [left], [inr] is [right]. *)
Definition VerifyResult (T : Type) : Type := VerifyError + T.

Definition handleVerificationFailure (failure : any)
  : Completion VerifyError :=
  pass_name ← getProp failure "pass_name";
  if isString pass_name "BoundedChecker" then
    error_data ← getProp failure "error_data";
    checking_result ← getProp error_data "checking_result";
    if isString checking_result "Error" then
      counterexamples ← getProp error_data "counterexamples";
      Normal {| explanation := JString "found a counterexample";
                traces := counterexamples; errors := [] |}
    else if isString checking_result "Deadlock" then
      counterexamples ← getProp error_data "counterexamples";
      Normal {| explanation := JString "reached a deadlock";
                traces := counterexamples; errors := [] |}
    else
      Throw (Error ("internal error: unhandled verification error "
                    +:+ toString checking_result))
  else
    Throw (Error ("internal error: unhandled verification error at pass "
                  +:+ toString pass_name)).

(** [err(explanation)] with its defaults: no errors, no traces. *)
Definition err {A} (explanation : any) : VerifyResult A :=
  inl {| explanation := explanation; errors := []; traces := JUndefined |}.

Record RunRequest : Type := mkRunRequest {
  cmd : string;
  config : string
}.

Inductive RunResponse : Type :=
| success
| failure (errorType : string) (data : string).

(** [AsyncCmdExecutor.run]; awaiting a rejected promise throws. *)
Record AsyncCmdExecutor : Type := mkCmdExecutor {
  run : RunRequest -> Completion RunResponse
}.

Section Check.

(** [JSON.parse] and [JSON.stringify] of the host, consumed as given. *)
Context (JSON_parse : string -> Completion any).
Context (JSON_stringify : any -> string).

(** The body of [check] after the response has arrived. *)
Definition checkResponse (response : RunResponse)
  : Completion (VerifyResult unit) :=
  match response with
  | success => Normal (inr tt)
  | failure errorType data =>
      if String.eqb errorType "UNEXPECTED" then
        errData ← JSON_parse data;
        msg ← getProp errData "msg";
        Normal (err msg)
      else if String.eqb errorType "PASS_FAILURE" then
        parsed ← JSON_parse data;
        e ← handleVerificationFailure parsed;
        Normal (inl e)
      else
        Normal (err (JString (errorType +:+ ": " +:+ data)))
  end.

(** [apalache(cmdExecutor).check] *)
Definition check (cmdExecutor : AsyncCmdExecutor) (c : any)
  : Completion (VerifyResult unit) :=
  response ← run cmdExecutor {| cmd := "CHECK"; config := JSON_stringify c |};
  checkResponse response.

End Check.

(** *** A reader for JSON documents

    [JSON.parse] itself stays a parameter of [check].  The examples need it
    on a few documents; [parseJSON] reads the fragment they are written in:
    objects, arrays, strings with the single-character escapes, integers
    and the three literals.  It is never applied outside that fragment,
    where it gives up with a [SyntaxError]. *)

Definition dquote : ascii := Ascii.ascii_of_nat 34.
Definition backslash : ascii := Ascii.ascii_of_nat 92.

Definition isWhite (c : ascii) : bool :=
  let n := Ascii.nat_of_ascii c in
  (n =? 32)%nat || (n =? 10)%nat || (n =? 13)%nat || (n =? 9)%nat.

Definition isDigit (c : ascii) : bool :=
  let n := Ascii.nat_of_ascii c in (48 <=? n)%nat && (n <=? 57)%nat.

Fixpoint skipWhite (s : string) : string :=
  match s with
  | String c s' => if isWhite c then skipWhite s' else s
  | EmptyString => s
  end.

(** The digits at the head of [s], read onto [acc]. *)
Fixpoint readDigits (acc : Z) (s : string) : Z * string :=
  match s with
  | String c s' =>
      if isDigit c
      then readDigits (10 * acc + (Z.of_nat (Ascii.nat_of_ascii c) - 48)) s'
      else (acc, s)
  | EmptyString => (acc, s)
  end.

(** The characters of a string literal after its opening quote. *)
Fixpoint readChars (s : string) : option (string * string) :=
  match s with
  | EmptyString => None
  | String c s' =>
      if Ascii.eqb c dquote then Some (EmptyString, s')
      else if Ascii.eqb c backslash then
        match s' with
        | String e s'' =>
            let n := Ascii.nat_of_ascii e in
            let unescaped :=
              if Ascii.eqb e dquote then Some dquote
              else if Ascii.eqb e backslash then Some backslash
              else if (n =? 47)%nat then Some e
              else if (n =? 110)%nat then Some (Ascii.ascii_of_nat 10)
              else if (n =? 116)%nat then Some (Ascii.ascii_of_nat 9)
              else if (n =? 114)%nat then Some (Ascii.ascii_of_nat 13)
              else if (n =? 98)%nat then Some (Ascii.ascii_of_nat 8)
              else if (n =? 102)%nat then Some (Ascii.ascii_of_nat 12)
              else None in
            match unescaped, readChars s'' with
            | Some u, Some (str, rest) => Some (String u str, rest)
            | _, _ => None
            end
        | EmptyString => None
        end
      else
        match readChars s' with
        | Some (str, rest) => Some (String c str, rest)
        | None => None
        end
  end.

(** [s] without the prefix [p], when it starts with it. *)
Fixpoint dropPrefix (p s : string) : option string :=
  match p, s with
  | EmptyString, _ => Some s
  | String a p', String b s' => if Ascii.eqb a b then dropPrefix p' s' else None
  | String _ _, EmptyString => None
  end.

(** Assignment to an object's field: a later duplicate key overwrites. *)
Fixpoint setField (k : string) (v : any) (fields : list (string * any))
  : list (string * any) :=
  match fields with
  | [] => [(k, v)]
  | (k', v') :: fields' =>
      if String.eqb k' k then (k', v) :: fields'
      else (k', v') :: setField k v fields'
  end.

Fixpoint parseValue (fuel : nat) (s : string) : option (any * string) :=
  match fuel with
  | O => None
  | S fuel' =>
      match skipWhite s with
      | EmptyString => None
      | String c rest =>
          if Ascii.eqb c "{"%char then
            match skipWhite rest with
            | String "}"%char rest' => Some (JObject [], rest')
            | _ => parseMembers fuel' [] rest
            end
          else if Ascii.eqb c "["%char then
            match skipWhite rest with
            | String "]"%char rest' => Some (JArray [], rest')
            | _ => parseElements fuel' [] rest
            end
          else if Ascii.eqb c dquote then
            match readChars rest with
            | Some (str, rest') => Some (JString str, rest')
            | None => None
            end
          else if Ascii.eqb c "-"%char then
            match rest with
            | String d _ =>
                if isDigit d
                then let '(n, rest') := readDigits 0 rest in
                     Some (JNumber (- n), rest')
                else None
            | EmptyString => None
            end
          else if isDigit c then
            let '(n, rest') := readDigits 0 (String c rest) in
            Some (JNumber n, rest')
          else
            match dropPrefix "true" (String c rest),
                  dropPrefix "false" (String c rest),
                  dropPrefix "null" (String c rest) with
            | Some rest', _, _ => Some (JBool true, rest')
            | _, Some rest', _ => Some (JBool false, rest')
            | _, _, Some rest' => Some (JNull, rest')
            | _, _, _ => None
            end
      end
  end
with parseMembers (fuel : nat) (acc : list (string * any)) (s : string)
  : option (any * string) :=
  match fuel with
  | O => None
  | S fuel' =>
      match skipWhite s with
      | String c rest =>
          if Ascii.eqb c dquote then
            match readChars rest with
            | Some (key, rest1) =>
                match skipWhite rest1 with
                | String ":"%char rest2 =>
                    match parseValue fuel' rest2 with
                    | Some (v, rest3) =>
                        match skipWhite rest3 with
                        | String ","%char rest4 =>
                            parseMembers fuel' (setField key v acc) rest4
                        | String "}"%char rest4 =>
                            Some (JObject (setField key v acc), rest4)
                        | _ => None
                        end
                    | None => None
                    end
                | _ => None
                end
            | None => None
            end
          else None
      | EmptyString => None
      end
  end
with parseElements (fuel : nat) (acc : list any) (s : string)
  : option (any * string) :=
  match fuel with
  | O => None
  | S fuel' =>
      match parseValue fuel' s with
      | Some (v, rest) =>
          match skipWhite rest with
          | String ","%char rest' => parseElements fuel' (acc ++ [v]) rest'
          | String "]"%char rest' => Some (JArray (acc ++ [v]), rest')
          | _ => None
          end
      | None => None
      end
  end.

Definition parseJSON (text : string) : Completion any :=
  match parseValue (2 * String.length text + 2) text with
  | Some (v, rest) =>
      match skipWhite rest with
      | EmptyString => Normal v
      | String _ _ => Throw (SyntaxError "Unexpected token in JSON")
      end
  | None => Throw (SyntaxError "Unexpected token in JSON")
  end.

(** A string between double quotes, as it stands in a JSON document. *)
Definition quoted (s : string) : string :=
  String dquote (s +:+ String dquote EmptyString).

(** The characters of a string as they stand between the quotes of a JSON
    document: a quote and a backslash are escaped.  (Control characters,
    which would be escaped too, do not occur in the examples.) *)
Fixpoint escaped (s : string) : string :=
  match s with
  | EmptyString => EmptyString
  | String c s' =>
      if Ascii.eqb c dquote || Ascii.eqb c backslash
      then String backslash (String c (escaped s'))
      else String c (escaped s')
  end.

(** A reading of [JSON.stringify] for the examples: an [undefined] field of
    an object is left out and an [undefined] element of an array is written
    as null.  ([JSON.stringify(undefined)] is not a string; it is never
    asked for here and is written as the empty text.) *)
Fixpoint stringifyJSON (v : any) : string :=
  match v with
  | JUndefined => ""
  | JNull => "null"
  | JBool true => "true"
  | JBool false => "false"
  | JNumber n => pretty n
  | JString s => quoted (escaped s)
  | JArray elements =>
      "[" +:+
      (fix items (l : list any) : string :=
         match l with
         | [] => ""
         | [x] => match x with JUndefined => "null" | _ => stringifyJSON x end
         | x :: l' =>
             match x with JUndefined => "null" | _ => stringifyJSON x end
             +:+ "," +:+ items l'
         end) elements
      +:+ "]"
  | JObject fields =>
      "{" +:+
      (fix members (first : bool) (l : list (string * any)) : string :=
         match l with
         | [] => ""
         | (_, JUndefined) :: l' => members first l'
         | (k, x) :: l' =>
             (if first then "" else ",")
             +:+ quoted (escaped k) +:+ ":" +:+ stringifyJSON x
             +:+ members false l'
         end) true fields
      +:+ "}"
  end.

End Verifier.


(** Modelled from the spec: [isAction], [isTemporal] and [isState] of
    effects/base.ts are not part of the sources at hand.  Section 4.2 calls
    them "denotes a state update", "denotes a temporal combinator" and
    "denotes a state read".  On the two payloads of a concrete effect: an
    update payload that names a variable is a state update, a read payload
    that names a variable is a state read, and the pair has no temporal
    part.  The theorems below hold for any three predicates; these are the
    ones the examples are run with. *)
Fixpoint namesVariable (v : Variables) : bool :=
  match v with
  | VConcrete _ vars => negb (bool_decide (vars = []))
  | VUnion _ variables => existsb namesVariable variables
  end.

Definition updatesState (c : ConcreteEffect) : bool := namesVariable (update c).
Definition isTemporalFormula (c : ConcreteEffect) : bool := false.
Definition readsState (c : ConcreteEffect) : bool := namesVariable (read c).

(** ** Example inputs *)

Module Examples.

(** The payload of the state variable [x], and three payloads that name no
    variable; each is an object of its own. *)
Definition x : Variables := VConcrete 1%positive ["x"].
Definition none1 : Variables := VConcrete 2%positive [].
Definition none2 : Variables := VConcrete 3%positive [].
Definition none3 : Variables := VConcrete 4%positive [].

(** A parameter that reads [x], and a result whose read payload is the
    union with the single member [x]. *)
Definition readsX : ConcreteEffect := {| read := x; update := none1 |}.

(** A parameter that touches no state, and the arrow effect from it to a
    result that reads [x]. *)
Definition pure : ConcreteEffect := {| read := none2; update := none3 |}.
Definition pureToReadsX : Effect := EArrow [EConcrete pure] (EConcrete readsX).


(** The definition [f], declared staticval, whose effect reads [x]; the
    definition [g], declared action, with the same effect; and a printer
    that shows a definition by its name. *)
Definition f : TntOpDef := {| id := 1; name := "f"; qualifier := staticval |}.
Definition g : TntOpDef := {| id := 2; name := "g"; qualifier := action |}.
Definition printName (d : TntOpDef) : string := name d.

Definition effectsOfF : gmap Z Effect := {[ 1 := EConcrete readsX ]}.
Definition effectsOfFG : gmap Z Effect :=
  <[ 2 := EConcrete readsX ]> effectsOfF.

End Examples.

Module VerifierExamples.

(** Responses of the Apalache server: the data of a counterexample found
    by the bounded checker, the data of a failure of another pass, and the
    data of an unexpected error. *)
Definition counterexampleData : string :=
  "{" +:+ Verifier.quoted "pass_name" +:+ ":"
  +:+ Verifier.quoted "BoundedChecker" +:+ ","
  +:+ Verifier.quoted "error_data" +:+ ":{"
  +:+ Verifier.quoted "checking_result" +:+ ":" +:+ Verifier.quoted "Error"
  +:+ "," +:+ Verifier.quoted "counterexamples" +:+ ":[{}]}}".

Definition otherPassData : string :=
  "{" +:+ Verifier.quoted "pass_name" +:+ ":"
  +:+ Verifier.quoted "TypeCheckerSnowcat" +:+ ","
  +:+ Verifier.quoted "error_data" +:+ ":{}}".

Definition unexpectedData : string :=
  "{" +:+ Verifier.quoted "msg" +:+ ":"
  +:+ Verifier.quoted "Configuration error" +:+ "}".

(** A command executor that answers every request with [response]. *)
Definition answering (response : Verifier.RunResponse)
  : Verifier.AsyncCmdExecutor :=
  {| Verifier.run := fun _ => Normal response |}.

(** An empty configuration. *)
Definition emptyConfig : Verifier.any := Verifier.JObject [].

End VerifierExamples.

(** ** Finding the Apalache distribution (quintVerifier.ts) *)

Module Distribution.

(** What [findApalacheDistribution] reads of its host: the environment
    variable, which may be unset, the working directory, [path.isAbsolute],
    [path.join] on strings, and [fs.existsSync]. *)
Record Host : Type := mkHost {
  APALACHE_DIST : option string;
  cwd : string;
  isAbsolute : string -> bool;
  join : list string -> string;
  existsSync : string -> bool
}.

Record ApalacheDist : Type := mkDist {
  jar : string;
  exe : string
}.

(** A string in a condition: true unless empty. *)
Definition truthy (s : string) : bool := negb (String.eqb s "").

(** [path.join] refuses an argument that is not a string. *)
Definition joinOfUndefined : JsError :=
  TypeError ("The " +:+ Verifier.quoted "path"
             +:+ " argument must be of type string. Received undefined").

Definition unableToFind : string :=
  "Unable to find the apalache distribution. Ensure the APALACHE_DIST enviroment variable is set.".

Definition findApalacheDistribution (host : Host)
  : Completion (Verifier.VerifyResult ApalacheDist) :=
  configuredDist ←
    match APALACHE_DIST host with
    | Some dist =>
        if truthy dist && isAbsolute host dist then Normal dist
        else Normal (join host [cwd host; dist])
    | None => Throw joinOfUndefined
    end;
  let distResult : Verifier.VerifyResult string :=
    if truthy configuredDist && negb (existsSync host configuredDist) then
      Verifier.err
        (Verifier.JString ("Specified APALACHE_DIST " +:+ configuredDist
                           +:+ " does not exist"))
    else if truthy configuredDist then inr configuredDist
    else Verifier.err (Verifier.JString unableToFind) in
  match distResult with
  | inl e => Normal (inl e)
  | inr dist =>
      let jar := join host [dist; "lib"; "apalache.jar"] in
      let exe := join host [dist; "bin"; "apalache-mc"] in
      if existsSync host jar && existsSync host exe
      then Normal (inr {| jar := jar; exe := exe |})
      else Normal (Verifier.err
                     (Verifier.JString
                        ("Apalache distribution is corrupted. Cannot find "
                         +:+ jar +:+ " or " +:+ exe +:+ ".")))
  end.

(** A host for the examples: paths are joined with a slash, with [.] for
    the empty path, a path is absolute when it starts with a slash, and the
    file system holds the paths of [files]. *)
Fixpoint joinWithSlash (segments : list string) : string :=
  match segments with
  | [] => ""
  | [s] => s
  | s :: rest => s +:+ "/" +:+ joinWithSlash rest
  end.

Definition exampleJoin (segments : list string) : string :=
  let joined := joinWithSlash (filter (fun s => s <> "") segments) in
  if String.eqb joined "" then "." else joined.

Definition startsWithSlash (s : string) : bool :=
  match s with String c _ => Ascii.eqb c "/"%char | EmptyString => false end.

Definition exampleHost (dist : option string) (files : list string) : Host :=
  {| APALACHE_DIST := dist; cwd := "/home/user";
     isAbsolute := startsWithSlash; join := exampleJoin;
     existsSync := fun p => bool_decide (p ∈ files) |}.

End Distribution.

(** ** The definitions collector

    The second half of the source file: [collectDefinitions] and
    [collectFromExpr], with the tables [defaultDefinitions] and
    [defaultTypes] they start from. *)

Module Collector.

(** Expressions, as [collectFromExpr] reads them: a lambda has parameters
    and a body, an application has arguments, a let has an operator
    definition and a body, and every other kind (names and literals) has
    nothing to collect.  An operator definition has a name, a qualifier and
    a body, which the collector tests for at the top level ([if
    (def.expr)]) and is therefore optional. *)
Inductive TntEx : Type :=
| ExLambda (id : Z) (params : list string) (expr : TntEx)
| ExApp (id : Z) (opcode : string) (args : list TntEx)
| ExLet (id : Z) (opdef : TntOpDef) (expr : TntEx)
| ExOther (id : Z)
with TntOpDef : Type :=
| OpDef (name : string) (qualifier : OpQualifier) (expr : option TntEx).

Definition opName (d : TntOpDef) : string :=
  match d with OpDef name _ _ => name end.
Definition opQualifier (d : TntOpDef) : OpQualifier :=
  match d with OpDef _ qualifier _ => qualifier end.
Definition opExpr (d : TntOpDef) : option TntEx :=
  match d with OpDef _ _ expr => expr end.

Record NameDefinition : Type := mkName {
  kind : string;
  identifier : string;
  scope : option Z
}.

Section Tables.

(** [TntType] of tntTypes.ts, consumed as given. *)
Context (TntType : Type).

(** The definitions of a module, by [kind]; [DOther] stands for the kinds
    the [switch] has no case for. *)
Inductive TntDef : Type :=
| DConst (name : string)
| DVar (name : string)
| DDef (opdef : TntOpDef)
| DInstance (name : string)
| DModule (module : TntModule)
| DTypedef (name : string) (type : TntType)
| DOther
with TntModule : Type :=
| Module_ (name : string) (defs : list TntDef).

Definition moduleName (m : TntModule) : string :=
  match m with Module_ name _ => name end.
Definition moduleDefs (m : TntModule) : list TntDef :=
  match m with Module_ _ defs => defs end.

Record TypeDefinition : Type := mkType {
  typeIdentifier : string;
  type : TntType
}.

(** A [DefinitionTable] holds two arrays.  The table [collectDefinitions]
    builds holds the arrays [defaultDefinitions] and [defaultTypes]
    themselves, not copies: what is pushed onto the table is pushed onto
    the two module-level arrays.  One record stands for both, the table
    and the contents of the two arrays. *)
Record DefinitionTable : Type := mkTable {
  nameDefinitions : list NameDefinition;
  typeDefinitions : list TypeDefinition
}.

(** [collectFromExpr(undefined)] reads [kind] of [undefined]. *)
Definition kindOfUndefined : JsError :=
  TypeError "Cannot read properties of undefined (reading 'kind')".

Fixpoint collectFromExpr (expr : TntEx) : Completion (list NameDefinition) :=
  match expr with
  | ExLambda id params body =>
      rest ← collectFromExpr body;
      Normal (map (fun p => {| kind := "def"; identifier := p;
                               scope := Some id |}) params ++ rest)
  | ExApp _ _ args =>
      (fix flatMap (l : list TntEx) : Completion (list NameDefinition) :=
         match l with
         | [] => Normal []
         | arg :: l' =>
             here ← collectFromExpr arg;
             rest ← flatMap l';
             Normal (here ++ rest)
         end) args
  | ExLet id (OpDef name qualifier body) rest =>
      fromBody ← match body with
                 | Some e => collectFromExpr e
                 | None => Throw kindOfUndefined
                 end;
      fromRest ← collectFromExpr rest;
      Normal ([{| kind := qualifierToString qualifier; identifier := name;
                  scope := Some id |}] ++ fromBody ++ fromRest)
  | ExOther _ => Normal []
  end.

(** One run of the reducer callback: the exception it ended with, if any,
    and the table as it stands then. *)
Record Run : Type := mkRun {
  thrown : option JsError;
  table : DefinitionTable
}.

Definition pushName (t : DefinitionTable) (ns : list NameDefinition)
  : DefinitionTable :=
  {| nameDefinitions := nameDefinitions t ++ ns;
     typeDefinitions := typeDefinitions t |}.

Definition pushType (t : DefinitionTable) (d : TypeDefinition)
  : DefinitionTable :=
  {| nameDefinitions := nameDefinitions t;
     typeDefinitions := typeDefinitions t ++ [d] |}.

(** The callback of [tntModule.defs.reduce]. *)
Definition collectDef (t : DefinitionTable) (d : TntDef) : Run :=
  match d with
  | DConst name =>
      {| thrown := None;
         table := pushName t [{| kind := "const"; identifier := name;
                                 scope := None |}] |}
  | DVar name =>
      {| thrown := None;
         table := pushName t [{| kind := "var"; identifier := name;
                                 scope := None |}] |}
  | DDef opdef =>
      let t1 := pushName t [{| kind := "def"; identifier := opName opdef;
                               scope := None |}] in
      match opExpr opdef with
      | Some e =>
          match collectFromExpr e with
          | Normal ns => {| thrown := None; table := pushName t1 ns |}
          | Throw err => {| thrown := Some err; table := t1 |}
          end
      | None => {| thrown := None; table := t1 |}
      end
  | DInstance name =>
      {| thrown := None;
         table := pushName t [{| kind := "namespace"; identifier := name;
                                 scope := None |}] |}
  | DModule m =>
      {| thrown := None;
         table := pushName t [{| kind := "namespace";
                                 identifier := moduleName m;
                                 scope := None |}] |}
  | DTypedef name type =>
      {| thrown := None;
         table := pushType t {| typeIdentifier := name; type := type |} |}
  | DOther => {| thrown := None; table := t |}
  end.

Fixpoint collectDefs (t : DefinitionTable) (ds : list TntDef) : Run :=
  match ds with
  | [] => {| thrown := None; table := t |}
  | d :: ds' =>
      let r := collectDef t d in
      match thrown r with
      | Some _ => r
      | None => collectDefs (table r) ds'
      end
  end.

(** [collectDefinitions(tntModule)], run with the two module-level arrays
    holding [defaults]; the table of the result is both the table returned
    and what the two arrays hold afterwards. *)
Definition collectDefinitions (defaults : DefinitionTable)
  (tntModule : TntModule) : Run :=
  collectDefs defaults (moduleDefs tntModule).

End Tables.

(** [Array.prototype.flatMap] with a callback that may throw. *)
Fixpoint flatMap {A B} (f : A -> Completion (list B)) (l : list A)
  : Completion (list B) :=
  match l with
  | [] => Normal []
  | x :: l' => here ← f x; rest ← flatMap f l'; Normal (here ++ rest)
  end.

(** The identifiers of the lambdas and lets of an expression. *)
Fixpoint binders (expr : TntEx) : list Z :=
  match expr with
  | ExLambda id _ body => id :: binders body
  | ExApp _ _ args =>
      (fix ofArgs (l : list TntEx) : list Z :=
         match l with
         | [] => []
         | arg :: l' => binders arg ++ ofArgs l'
         end) args
  | ExLet id (OpDef _ _ body) rest =>
      id :: match body with Some e => binders e | None => [] end
         ++ binders rest
  | ExOther _ => []
  end.

(** The names [defaultDefinitions] is initialised with. *)
Definition builtinNames : list string :=
  ["not"; "and"; "or"; "iff"; "implies"; "exists"; "guess"; "forall"; "in";
   "notin"; "union"; "contains"; "fold"; "intersect"; "exclude"; "subseteq";
   "map"; "applyTo"; "filter"; "powerset"; "flatten"; "seqs"; "choose_some";
   "isFinite"; "cardinality"; "get"; "put"; "keys"; "mapOf"; "setOfMaps";
   "update"; "updateAs"; "fields"; "with"; "tuples"; "append"; "concat";
   "head"; "tail"; "length"; "nth"; "indices"; "replaceAt"; "slice";
   "select"; "foldl"; "foldr"; "to"; "always"; "eventually"; "next";
   "stutter"; "nostutter"; "enabled"; "weakFair"; "strongFair";
   "guarantees"; "exists_const"; "forall_const"; "choose_const"; "Bool";
   "Int"; "Nat"; "TRUE"; "FALSE"].

Definition defaultDefinitions : list NameDefinition :=
  map (fun n => {| kind := "def"; identifier := n; scope := None |})
      builtinNames.

(** The two arrays as the module is loaded: [defaultDefinitions] and the
    empty [defaultTypes]. *)
Definition initialTable (TntType : Type) : DefinitionTable TntType :=
  {| nameDefinitions := defaultDefinitions; typeDefinitions := [] |}.

End Collector.

(** ** More of the reducer *)

(** The concrete nodes of an effect tree, in the order the walk visits
    them. *)
Fixpoint leaves (effect : Effect) : list ConcreteEffect :=
  match effect with
  | EConcrete c => [c]
  | EArrow params result =>
      (fix ofParams (ps : list Effect) : list ConcreteEffect :=
         match ps with
         | [] => []
         | p :: ps' => leaves p ++ ofParams ps'
         end) params ++ leaves result
  end.

(** The most general mode of a list of modes; staticval for none. *)
Definition mostGeneral (modes : list OpQualifier) : OpQualifier :=
  foldr moreGeneralMode staticval modes.

(** The walk from a parameterless accumulator ends with the accumulator
    joined with the most general class among the leaves. *)
Definition accumulates (isAction isTemporal isState : ConcreteEffect -> bool)
  (effect : Effect) : Prop :=
  forall this : ModeFinderVisitor,
    parameterless (currentMode this) ->
    walkEffect (V := ModeFinder_visitor isAction isTemporal isState) this effect
    = Normal {| currentMode :=
                  moreGeneralMode (currentMode this)
                    (mostGeneral
                       (map (concreteMode isAction isTemporal isState)
                            (leaves effect))) |}.

(** ** More example inputs *)

Module MoreExamples.

(** The definition [h], declared def, whose effect is the arrow from a
    parameter that touches no state to a result that reads [x]; and the
    definition [always_x], declared temporal, whose effect reads [x]. *)
Definition h : TntOpDef := {| id := 3; name := "h"; qualifier := def |}.
Definition always_x : TntOpDef :=
  {| id := 4; name := "always_x"; qualifier := temporal |}.

(** The definition [f2], declared staticval like [f], and effects under
    which both [f] and [f2] read [x]. *)
Definition f2 : TntOpDef := {| id := 5; name := "f2"; qualifier := staticval |}.
Definition effectsOfFF2 : gmap Z Effect :=
  <[ 5 := EConcrete Examples.readsX ]> Examples.effectsOfF.

Definition effectsOfH : gmap Z Effect := {[ 3 := Examples.pureToReadsX ]}.
Definition effectsOfAlways : gmap Z Effect :=
  {[ 4 := EConcrete Examples.readsX ]}.

(** The lambda [a => ...] with identifier 7 over a name. *)
Definition lambda : Collector.TntEx :=
  Collector.ExLambda 7 ["a"] (Collector.ExOther 8).

(** A distribution under /opt/apalache with its jar and its executable. *)
Definition installed : list string :=
  ["/opt/apalache"; "/opt/apalache/lib/apalache.jar";
   "/opt/apalache/bin/apalache-mc"].

End MoreExamples.

(** * The mode lattice *)

Lemma position_findIndex (q : OpQualifier) :
  findIndex (fun elem => bool_decide (elem = q)) modeOrder = position q.
Proof. destruct q; reflexivity. Qed.

Lemma moreGeneralMode_position (a b : OpQualifier) :
  moreGeneralMode a b = if position a >? position b then a else b.
Proof. unfold moreGeneralMode. now rewrite !position_findIndex. Qed.

Lemma position_inj (a b : OpQualifier) : position a = position b -> a = b.
Proof. destruct a, b; simpl; intros H; try reflexivity; discriminate H. Qed.

Lemma modeLe_position (a b : OpQualifier) :
  modeLe a b <-> position a <= position b.
Proof.
  unfold modeLe. rewrite moreGeneralMode_position.
  destruct (Z.gtb_spec (position a) (position b)) as [Hgt | Hle].
  - split; [intros ->; lia | lia].
  - split; [intros _; exact Hle | reflexivity].
Qed.

Lemma moreGeneralMode_cases (a b : OpQualifier) :
  moreGeneralMode a b = a \/ moreGeneralMode a b = b.
Proof.
  rewrite moreGeneralMode_position. destruct (position a >? position b); auto.
Qed.

(** C7: moreGeneralMode returns whichever argument stands later in the order
    staticval < staticdef < val < def < action < temporal; it is idempotent;
    the relation it induces is total and transitive; staticval is its
    identity and temporal absorbs. *)
Theorem moreGeneralMode_lattice :
  (forall a b, position (moreGeneralMode a b) = Z.max (position a) (position b))
  /\ (forall a b, moreGeneralMode a b = a \/ moreGeneralMode a b = b)
  /\ (forall a, moreGeneralMode a a = a)
  /\ (forall a b, modeLe a b \/ modeLe b a)
  /\ (forall a b c, modeLe a b -> modeLe b c -> modeLe a c)
  /\ (forall b, moreGeneralMode staticval b = b)
  /\ (forall b, moreGeneralMode temporal b = temporal).
Proof.
  repeat split.
  - intros a b. rewrite moreGeneralMode_position.
    destruct (Z.gtb_spec (position a) (position b)); lia.
  - apply moreGeneralMode_cases.
  - intros a. rewrite moreGeneralMode_position.
    now destruct (position a >? position a).
  - intros a b. rewrite !modeLe_position. lia.
  - intros a b c. rewrite !modeLe_position. lia.
  - intros b. now destruct b.
  - intros b. now destruct b.
Qed.

(** * Walking effects *)

Lemma Effect_induction (P : Effect -> Prop) :
  (forall c, P (EConcrete c)) ->
  (forall params result,
      Forall P params -> P result -> P (EArrow params result)) ->
  forall effect, P effect.
Proof.
  intros Hconcrete Harrow. fix IH 1. intros [c | params result].
  - apply Hconcrete.
  - apply Harrow; [| apply IH].
    induction params as [| p ps IHps]; constructor; [apply IH | exact IHps].
Qed.

Lemma walkEffect_arrow {S} {V : EffectVisitor.t S} (visitor : S)
  (params : list Effect) (result : Effect) :
  walkEffect visitor (EArrow params result) =
  (v1 ← walkParams params visitor;
   v2 ← walkEffect v1 result;
   EffectVisitor.exitArrow v2 params result).
Proof.
  simpl. f_equal. unfold walkParams. revert visitor.
  induction params as [| p ps IH]; intros visitor; simpl; [reflexivity |].
  destruct (walkEffect visitor p) as [v' | e]; simpl; [apply IH | reflexivity].
Qed.

Lemma arrowNodes_arrow (params : list Effect) (result : Effect) :
  arrowNodes (EArrow params result) =
  S (list_sum (map arrowNodes params) + arrowNodes result).
Proof.
  simpl. do 2 f_equal.
  induction params as [| p ps IH]; simpl; [reflexivity | now rewrite IH].
Qed.

Lemma parameterless_not_def (m : OpQualifier) :
  parameterless m <-> m <> staticdef /\ m <> def.
Proof.
  unfold parameterless. destruct m; split; intros H; try (split; discriminate);
    try (destruct H as [H1 H2]; congruence);
    try (repeat (destruct H as [H | H]); discriminate H); auto.
Qed.

Lemma parameterless_moreGeneralMode (a b : OpQualifier) :
  parameterless a -> parameterless b -> parameterless (moreGeneralMode a b).
Proof.
  intros Ha Hb.
  destruct (moreGeneralMode_cases a b) as [-> | ->]; assumption.
Qed.

Section ModeFinderFacts.

Context (isAction isTemporal isState : ConcreteEffect -> bool).

Local Abbreviation finderV := (ModeFinder_visitor isAction isTemporal isState).
Local Abbreviation observerV := (Observed_visitor isAction isTemporal isState).
Local Abbreviation concreteMode := (concreteMode isAction isTemporal isState).
Local Abbreviation exitConcrete := (exitConcrete isAction isTemporal isState).
Local Abbreviation classifiedAs := (classifiedAs isAction isTemporal isState).
Local Abbreviation reduce := (reduce isAction isTemporal isState).
Local Abbreviation walkInvariant :=
  (walkInvariant isAction isTemporal isState).

Lemma concreteMode_classified (effect : ConcreteEffect) :
  classifiedAs effect (concreteMode effect).
Proof.
  unfold concreteMode.
  destruct (isAction effect) eqn:Ha; [now constructor |].
  destruct (isTemporal effect) eqn:Ht; [now constructor |].
  destruct (isState effect) eqn:Hs; now constructor.
Qed.

Lemma classifiedAs_unique (effect : ConcreteEffect) (m : OpQualifier) :
  classifiedAs effect m -> m = concreteMode effect.
Proof.
  unfold concreteMode. intros H; inversion H; subst;
    repeat match goal with Heq : _ effect = _ |- _ => rewrite Heq; clear Heq end;
    reflexivity.
Qed.

Lemma concreteMode_parameterless (effect : ConcreteEffect) :
  parameterless (concreteMode effect).
Proof.
  unfold concreteMode, parameterless.
  destruct (isAction effect), (isTemporal effect), (isState effect); auto.
Qed.

(** C2: a concrete node is classified by the first predicate that holds, in
    the order action, temporal, state read, and otherwise as staticval; the
    accumulator after the node is the more general of the accumulator
    before it and this classification. *)
Theorem exitConcrete_classifies (this : ModeFinderVisitor)
  (effect : ConcreteEffect) :
  exists mode,
    classifiedAs effect mode
    /\ walkEffect (V := finderV) this (EConcrete effect)
       = Normal (exitConcrete this effect)
    /\ currentMode (exitConcrete this effect)
       = moreGeneralMode (currentMode this) mode.
Proof.
  exists (concreteMode effect). split; [apply concreteMode_classified |].
  split; reflexivity.
Qed.

Lemma exitArrow_parameterless (this : ModeFinderVisitor)
  (params : list Effect) (result : Effect) :
  parameterless (currentMode this) -> exitArrow this params result = Normal this.
Proof.
  intros H. apply parameterless_not_def in H as [H1 H2]. unfold exitArrow.
  rewrite (bool_decide_eq_true_2 _ H1), (bool_decide_eq_true_2 _ H2).
  reflexivity.
Qed.

Lemma exitConcrete_parameterless (this : ModeFinderVisitor)
  (effect : ConcreteEffect) :
  parameterless (currentMode this) ->
  parameterless (currentMode (exitConcrete this effect)).
Proof.
  intros H. apply parameterless_moreGeneralMode;
    [exact H | apply concreteMode_parameterless].
Qed.

Lemma walkParams_invariant (params : list Effect) :
  Forall walkInvariant params ->
  forall (this : ModeFinderVisitor) (log : list (OpQualifier * OpQualifier)),
    parameterless (currentMode this) ->
    exists this' entries,
      walkParams (V := observerV) params (this, log)
      = Normal (this', log ++ entries)
      /\ walkParams (V := finderV) params this = Normal this'
      /\ parameterless (currentMode this')
      /\ Forall untouched entries
      /\ length entries = list_sum (map arrowNodes params).
Proof.
  induction 1 as [| p ps Hp _ IH]; intros this log Hthis.
  - exists this, []. rewrite app_nil_r. repeat split; auto.
  - destruct (Hp this log Hthis) as (this1 & l1 & Ho1 & Hf1 & Hm1 & Hl1 & Hn1).
    destruct (IH this1 (log ++ l1) Hm1)
      as (this2 & l2 & Ho2 & Hf2 & Hm2 & Hl2 & Hn2).
    exists this2, (l1 ++ l2). unfold walkParams in *. simpl.
    rewrite Ho1, Hf1. simpl. rewrite Ho2, Hf2, app_assoc.
    repeat split; auto.
    + apply Forall_app; auto.
    + rewrite length_app. lia.
Qed.

Lemma walkEffect_invariant (effect : Effect) : walkInvariant effect.
Proof.
  induction effect as [c | params result IHparams IHresult]
    using Effect_induction; intros this log Hthis.
  - exists (exitConcrete this c), []. rewrite app_nil_r. simpl.
    repeat split; auto. now apply exitConcrete_parameterless.
  - destruct (walkParams_invariant params IHparams this log Hthis)
      as (this1 & l1 & Ho1 & Hf1 & Hm1 & Hl1 & Hn1).
    destruct (IHresult this1 (log ++ l1) Hm1)
      as (this2 & l2 & Ho2 & Hf2 & Hm2 & Hl2 & Hn2).
    exists this2, (l1 ++ l2 ++ [(currentMode this2, currentMode this2)]).
    rewrite arrowNodes_arrow, !walkEffect_arrow, Ho1, Hf1. simpl.
    rewrite Ho2, Hf2. simpl.
    rewrite (exitArrow_parameterless this2 params result Hm2). simpl.
    rewrite !app_assoc.
    repeat split; auto.
    + repeat (apply Forall_app; split); auto.
      constructor; [split; auto | constructor].
    + rewrite !length_app. simpl. lia.
Qed.

Lemma reduce_parameterless (effect : Effect) :
  exists mode, reduce effect = Normal mode /\ parameterless mode.
Proof.
  destruct (walkEffect_invariant effect newModeFinderVisitor [])
    as (this' & l & _ & Hf & Hm & _); [left; reflexivity |].
  exists (currentMode this'). unfold reduce. rewrite Hf. split; auto.
Qed.

(** C9: folding any effect tree from the initial accumulator staticval, no
    arrow node is ever visited with the accumulator at staticdef or def, so
    every arrow node leaves the accumulator as it found it, and the mode the
    reducer returns is one of staticval, val, action and temporal. *)
Theorem arrow_rule_never_fires (effect : Effect) :
  exists (finder : ModeFinderVisitor)
         (entries : list (OpQualifier * OpQualifier)),
    walkEffect (V := observerV) (newModeFinderVisitor, []) effect
    = Normal (finder, entries)
    /\ length entries = arrowNodes effect
    /\ Forall (fun entry => fst entry <> staticdef /\ fst entry <> def
                            /\ snd entry = fst entry) entries
    /\ reduce effect = Normal (currentMode finder)
    /\ (currentMode finder = staticval \/ currentMode finder = val
        \/ currentMode finder = action \/ currentMode finder = temporal).
Proof.
  destruct (walkEffect_invariant effect newModeFinderVisitor [])
    as (this' & l & Ho & Hf & Hm & Hl & Hn); [left; reflexivity |].
  exists this', l. repeat split; auto.
  - eapply Forall_impl; [exact Hl |]. intros [b a] [Hb Ha].
    apply parameterless_not_def in Hb as [? ?]. auto.
  - unfold reduce. now rewrite Hf.
Qed.

(** ** The arrow rule, seen as a function of the accumulator *)

Lemma addParamReads_addable (paramReads : VariablesSet) (p : Effect) :
  addable p ->
  addParamReads paramReads p = Normal (paramReadsSpec [p] ∪ paramReads).
Proof.
  destruct p as [c | ps r]; simpl; intros H.
  - unfold payloadRefs. destruct (read c) as [self vars | self variables] eqn:Hr;
      simpl in *.
    + f_equal. set_solver.
    + destruct H as [H | ->]; [discriminate H |]. simpl. f_equal. set_solver.
  - f_equal. set_solver.
Qed.

Lemma forEach_addParamReads (params : list Effect) (paramReads : VariablesSet) :
  Forall addable params ->
  forEach addParamReads params paramReads
  = Normal (paramReadsSpec params ∪ paramReads).
Proof.
  intros H. revert paramReads.
  induction H as [| p ps Hp _ IH]; intros paramReads; simpl.
  - f_equal. set_solver.
  - rewrite (addParamReads_addable _ _ Hp). simpl. rewrite IH. f_equal.
    destruct p as [c | ? ?]; simpl; set_solver.
Qed.

Lemma forallb_has (s : VariablesSet) (variables : list Variables) :
  forallb (fun v => has s v) variables = true
  <-> forall v, v ∈ variables -> refOf v ∈ s.
Proof.
  rewrite forallb_forall. unfold has. split; intros H v Hv.
  - apply list_elem_of_In in Hv. apply H in Hv. now apply bool_decide_eq_true in Hv.
  - apply bool_decide_eq_true. apply H. now apply list_elem_of_In.
Qed.

(** What [exitArrow] computes when it is entered with the accumulator at
    staticdef or def and the parameters can be added: def when the result's
    read payload is a union with a member outside [P], and also whenever
    the result's read payload itself, union or not, is outside [P]. *)
Lemma exitArrow_addable (this : ModeFinderVisitor) (params : list Effect)
  (r : ConcreteEffect) :
  currentMode this = staticdef \/ currentMode this = def ->
  Forall addable params ->
  exists mode,
    exitArrow this params (EConcrete r) = Normal {| currentMode := mode |}
    /\ (mode = def \/ mode = staticdef)
    /\ (mode = def <->
        promotesSpec params r \/ refOf (read r) ∉ paramReadsSpec params).
Proof.
  intros Hmode Hparams. unfold exitArrow.
  replace (bool_decide (currentMode this <> staticdef)
           && bool_decide (currentMode this <> def)) with false
    by (destruct Hmode as [-> | ->]; reflexivity).
  rewrite (forEach_addParamReads _ _ Hparams). simpl.
  rewrite (right_id_L ∅ (∪)). set (P := paramReadsSpec params).
  unfold promotesSpec. fold P.
  destruct (read r) as [self vars | self variables]; simpl.
  - unfold has. simpl. case_bool_decide as Hin; simpl.
    + exists staticdef. repeat split; auto; [discriminate | tauto].
    + exists def. repeat split; auto.
  - destruct (forallb (fun v => has P v) variables) eqn:Hall; simpl.
    + rewrite forallb_has in Hall. unfold has. simpl.
      case_bool_decide as Hin; simpl.
      * exists staticdef. repeat split; auto; [discriminate |].
        intros [(v & Hv & Hout) | Hout]; [destruct Hout; auto | tauto].
      * exists def. repeat split; auto.
    + exists def. repeat split; auto. intros _. left.
      destruct (decide (Forall (fun v => refOf v ∈ P) variables)) as [Hf | Hf].
      * rewrite Forall_forall in Hf. apply forallb_has in Hf. congruence.
      * apply not_Forall_Exists in Hf; [| intros ?; apply _].
        apply Exists_exists in Hf as (v & Hv & Hout). eauto.
Qed.

(** A concrete parameter whose read payload is a union with a member makes
    [exitArrow] throw: [paramReads.add] is handed to [forEach] without its
    receiver. *)
Lemma exitArrow_union_parameter_throws (this : ModeFinderVisitor)
  (params : list Effect) (result : Effect) :
  currentMode this = staticdef \/ currentMode this = def ->
  Exists (fun p => ~ addable p) params ->
  exitArrow this params result
  = Throw (TypeError
      "Method Set.prototype.add called on incompatible receiver undefined").
Proof.
  intros Hmode Hex. unfold exitArrow.
  replace (bool_decide (currentMode this <> staticdef)
           && bool_decide (currentMode this <> def)) with false
    by (destruct Hmode as [-> | ->]; reflexivity).
  generalize (∅ : VariablesSet) as paramReads.
  induction Hex as [p ps Hp | p ps _ IH]; intros paramReads; simpl.
  - destruct p as [c | ? ?]; simpl in *; [| tauto].
    destruct (read c) as [? ? | self [| v vs]]; simpl in *;
      try reflexivity; exfalso; apply Hp; auto.
  - destruct p as [c | ? ?]; simpl; [| apply IH].
    destruct (read c) as [? ? | self [| v vs]]; simpl; try apply IH.
    reflexivity.
Qed.

End ModeFinderFacts.


(** C4: the arrow effect from a parameter that touches no state to a result
    that reads the state variable x, a variable no parameter reads.  The
    parameter is classified staticval, the result val, and the arrow node,
    visited with the accumulator at val, does nothing: the reducer returns
    val.  It returns def on no effect at all. *)
Theorem reduce_arrow_reading_outside_params :
  namesVariable (read Examples.readsX) = true
  /\ (refOf (read Examples.readsX) ∉ paramReadsSpec [EConcrete Examples.pure])
  /\ concreteMode updatesState isTemporalFormula readsState Examples.pure
     = staticval
  /\ reduce updatesState isTemporalFormula readsState Examples.pureToReadsX
     = Normal val
  /\ (forall isAction isTemporal isState effect,
        reduce isAction isTemporal isState effect <> Normal def).
Proof.
  split; [reflexivity |]. split; [vm_compute; set_solver |].
  split; [reflexivity |]. split; [reflexivity |].
  intros isAction isTemporal isState effect Hdef.
  destruct (reduce_parameterless isAction isTemporal isState effect)
    as (mode & Hmode & Hp).
  rewrite Hdef in Hmode. injection Hmode as <-.
  apply parameterless_not_def in Hp as [_ Hp]. now apply Hp.
Qed.

(** * The definition checker and the module driver *)

Section ModeCheckerFacts.

Context (isAction isTemporal isState : ConcreteEffect -> bool).
Context (definitionToString : TntOpDef -> string).

Local Abbreviation finderV := (ModeFinder_visitor isAction isTemporal isState).
Local Abbreviation reduce := (reduce isAction isTemporal isState).
Local Abbreviation modeError := (modeError definitionToString).
Local Abbreviation exitOpDef :=
  (exitOpDef isAction isTemporal isState definitionToString).
Local Abbreviation walkModule :=
  (walkModule isAction isTemporal isState definitionToString).
Local Abbreviation checkModes :=
  (checkModes isAction isTemporal isState definitionToString).
Local Abbreviation judge := (judge definitionToString).
Local Abbreviation checkDefinitions :=
  (checkDefinitions isAction isTemporal isState definitionToString).
Local Abbreviation checkModesPure :=
  (checkModesPure isAction isTemporal isState definitionToString).
Local Abbreviation checkModesTwice :=
  (checkModesTwice isAction isTemporal isState definitionToString).
Local Abbreviation producesError :=
  (producesError isAction isTemporal isState).
Local Abbreviation producesSuggestion :=
  (producesSuggestion isAction isTemporal isState).

(** The visitor a judgement leaves behind. *)
Local Abbreviation after this out :=
  {| errors := fst out; suggestions := snd out; effects := effects this;
     modeFinderVisitor := newModeFinderVisitor |}.

Lemma finder_fresh (finder : ModeFinderVisitor) :
  currentMode finder = staticval -> finder = newModeFinderVisitor.
Proof. destruct finder as [m]. simpl. now intros ->. Qed.

(** One definition: with the accumulator at staticval on entry, [exitOpDef]
    judges the definition on the mode its effect reduces to, and leaves the
    accumulator at staticval. *)
Lemma exitOpDef_judge (this : ModeCheckerVisitor) (opdef : TntOpDef)
  (effect : Effect) :
  effects this !! id opdef = Some effect ->
  currentMode (modeFinderVisitor this) = staticval ->
  exists inferred,
    reduce effect = Normal inferred
    /\ exitOpDef this opdef
       = Normal (after this (judge opdef inferred
                               (errors this, suggestions this))).
Proof.
  intros Heffect Hfresh. apply finder_fresh in Hfresh.
  destruct (reduce_parameterless isAction isTemporal isState effect)
    as (inferred & Hreduce & _).
  exists inferred. split; [exact Hreduce |].
  unfold exitOpDef, judge. rewrite Heffect, Hfresh.
  unfold reduce in Hreduce.
  destruct (walkEffect newModeFinderVisitor effect) as [finder | e];
    simpl in *; [| discriminate Hreduce].
  injection Hreduce as ->.
  case_bool_decide as Heq; [reflexivity |].
  case_bool_decide as Hweak; [reflexivity |].
  case_bool_decide as Hstrong; [reflexivity |].
  destruct (moreGeneralMode_cases inferred (qualifier opdef)); contradiction.
Qed.

(** C1: for a definition with an effect in the map, [exitOpDef], entered
    as the driver enters it, with the accumulator at staticval, produces no
    output when the reduced mode equals the declared qualifier; when they
    differ and the more general of the two is the reduced mode it records
    one error for the definition, whose message names the reduced mode as
    expected and the declared qualifier as found; when the more general of
    the two is the declared qualifier it records one suggestion, the
    reduced mode; and one of the two holds whenever the modes differ. *)
Theorem exitOpDef_outcome (this : ModeCheckerVisitor) (opdef : TntOpDef)
  (effect : Effect) :
  effects this !! id opdef = Some effect ->
  currentMode (modeFinderVisitor this) = staticval ->
  exists inferred this',
    reduce effect = Normal inferred
    /\ exitOpDef this opdef = Normal this'
    /\ (inferred = qualifier opdef ->
        errors this' = errors this /\ suggestions this' = suggestions this)
    /\ (tooWeak inferred (qualifier opdef) ->
        errors this'
        = <[id opdef :=
              {| location := "Checking modes for " +:+ definitionToString opdef;
                 message := "Expected " +:+ qualifierToString inferred
                            +:+ " mode, found: "
                            +:+ qualifierToString (qualifier opdef);
                 children := [] |}]> (errors this)
        /\ suggestions this' = suggestions this)
    /\ (tooStrong inferred (qualifier opdef) ->
        errors this' = errors this
        /\ suggestions this' = <[id opdef := inferred]> (suggestions this))
    /\ (inferred <> qualifier opdef ->
        tooWeak inferred (qualifier opdef)
        \/ tooStrong inferred (qualifier opdef)).
Proof.
  intros Heffect Hfresh.
  destruct (exitOpDef_judge this opdef effect Heffect Hfresh)
    as (inferred & Hreduce & Hexit).
  exists inferred. eexists. split; [exact Hreduce |]. split; [exact Hexit |].
  unfold judge, tooWeak, tooStrong. simpl.
  split; [| split; [| split]].
  - intros Heq. now rewrite (bool_decide_eq_true_2 _ Heq).
  - intros [Hne Hweak].
    now rewrite (bool_decide_eq_false_2 _ Hne), (bool_decide_eq_true_2 _ Hweak).
  - intros [Hne Hstrong]. rewrite (bool_decide_eq_false_2 _ Hne).
    case_bool_decide as Hweak; [congruence | now split].
  - intros Hne.
    destruct (moreGeneralMode_cases inferred (qualifier opdef)); auto.
Qed.

(** ** The walk over the definitions *)

Lemma forEach_exitOpDef (ds : list TntOpDef) (this : ModeCheckerVisitor) :
  currentMode (modeFinderVisitor this) = staticval ->
  forEach exitOpDef ds this
  = (out ← checkDefinitions (effects this) ds (errors this, suggestions this);
     Normal (after this out)).
Proof.
  revert this. induction ds as [| d ds IH]; intros this Hfresh; simpl.
  - apply finder_fresh in Hfresh. destruct this; simpl in *. now subst.
  - destruct (effects this !! id d) as [effect |] eqn:Heffect.
    + destruct (exitOpDef_judge this d effect Heffect Hfresh)
        as (inferred & -> & ->).
      simpl. rewrite IH by reflexivity. simpl.
      now destruct (judge d inferred (errors this, suggestions this)).
    + unfold exitOpDef. now rewrite Heffect.
Qed.

Lemma size_positive {A} (m : gmap Z A) :
  (Z.of_nat (size m) >? 0) = negb (bool_decide (m = ∅)).
Proof.
  case_bool_decide as Hempty; simpl.
  - subst. reflexivity.
  - apply map_size_non_empty_iff in Hempty. apply Z.gtb_lt. lia.
Qed.

(** The visitor-based [checkModes] computes the pure aggregation. *)
Lemma checkModes_pure (tntModule : TntModule) (effects : gmap Z Effect) :
  checkModes tntModule effects = checkModesPure tntModule effects.
Proof.
  unfold checkModes, checkModesPure, walkModule.
  rewrite forEach_exitOpDef by reflexivity. simpl.
  destruct (checkDefinitions effects (defs tntModule) (∅, ∅)) as [out | e];
    simpl; [| reflexivity].
  rewrite size_positive. now case_bool_decide.
Qed.

Lemma producesError_iff (effects : gmap Z Effect) (d : TntOpDef)
  (effect : Effect) (inferred : OpQualifier) :
  effects !! id d = Some effect -> reduce effect = Normal inferred ->
  producesError effects d <-> tooWeak inferred (qualifier d).
Proof.
  intros Heffect Hreduce. split.
  - intros (effect' & inferred' & He & Hr & Hweak). congruence.
  - intros Hweak. exists effect, inferred. auto.
Qed.

Lemma producesSuggestion_iff (effects : gmap Z Effect) (d : TntOpDef)
  (effect : Effect) (inferred : OpQualifier) :
  effects !! id d = Some effect -> reduce effect = Normal inferred ->
  producesSuggestion effects d <-> tooStrong inferred (qualifier d).
Proof.
  intros Heffect Hreduce. split.
  - intros (effect' & inferred' & He & Hr & Hstrong). congruence.
  - intros Hstrong. exists effect, inferred. auto.
Qed.

Lemma judge_errors (d : TntOpDef) (inferred : OpQualifier)
  (out : gmap Z ErrorTree * gmap Z OpQualifier) (i : Z) :
  is_Some (fst (judge d inferred out) !! i)
  <-> is_Some (fst out !! i) \/ (id d = i /\ tooWeak inferred (qualifier d)).
Proof.
  unfold judge, tooWeak.
  case_bool_decide as Heq; [tauto |].
  case_bool_decide as Hweak; simpl; [| tauto].
  rewrite lookup_insert_is_Some. split.
  - intros [-> | [_ H]]; auto.
  - intros [H | [-> _]]; auto.
    destruct (decide (id d = i)); auto.
Qed.

Lemma judge_suggestions (d : TntOpDef) (inferred : OpQualifier)
  (out : gmap Z ErrorTree * gmap Z OpQualifier) (i : Z) :
  is_Some (snd (judge d inferred out) !! i)
  <-> is_Some (snd out !! i) \/ (id d = i /\ tooStrong inferred (qualifier d)).
Proof.
  unfold judge, tooStrong.
  case_bool_decide as Heq; [tauto |].
  case_bool_decide as Hweak; simpl.
  - split; [tauto | intros [H | [_ [_ Hstrong]]]; [exact H | congruence]].
  - rewrite lookup_insert_is_Some. split.
    + intros [-> | [_ H]]; auto. right. repeat split; auto.
      destruct (moreGeneralMode_cases inferred (qualifier d)); congruence.
    + intros [H | [-> _]]; auto.
      destruct (decide (id d = i)); auto.
Qed.

(** When every definition has an effect, the walk reaches the end, and the
    two maps hold entries for the definitions that produce them and for
    nothing else. *)
Lemma checkDefinitions_total (effects : gmap Z Effect) (ds : list TntOpDef) :
  (forall d, d ∈ ds -> is_Some (effects !! id d)) ->
  forall out, exists out',
    checkDefinitions effects ds out = Normal out'
    /\ (forall i, is_Some (fst out' !! i) <->
                  is_Some (fst out !! i)
                  \/ exists d, d ∈ ds /\ id d = i /\ producesError effects d)
    /\ (forall i, is_Some (snd out' !! i) <->
                  is_Some (snd out !! i)
                  \/ exists d, d ∈ ds /\ id d = i
                               /\ producesSuggestion effects d).
Proof.
  induction ds as [| d ds IH]; intros Hall out; simpl.
  - exists out. split; [reflexivity |].
    split; intros i; (split; [auto | intros [H | (d & Hd & _)]; [exact H |]]);
      now apply elem_of_nil in Hd.
  - destruct (Hall d) as [effect Heffect]; [left |].
    destruct (reduce_parameterless isAction isTemporal isState effect)
      as (inferred & Hreduce & _).
    rewrite Heffect, Hreduce. simpl.
    destruct (IH (fun d' Hd' => Hall d' (list_elem_of_further _ _ _ Hd'))
                 (judge d inferred out)) as (out' & Hrun & Herr & Hsug).
    exists out'. split; [exact Hrun |].
    pose proof (producesError_iff effects d effect inferred Heffect Hreduce)
      as Hpe.
    pose proof (producesSuggestion_iff effects d effect inferred Heffect
                  Hreduce) as Hps.
    split; intros i.
    + rewrite Herr, judge_errors. split.
      * intros [[H | [Hi Hweak]] | (d' & Hd' & Hi & Hp)]; auto.
        -- right. exists d. repeat split; [left | exact Hi | now apply Hpe].
        -- right. exists d'. repeat split; [now right | exact Hi | exact Hp].
      * intros [H | (d' & Hd' & Hi & Hp)]; auto.
        apply elem_of_cons in Hd' as [-> | Hd'].
        -- left. right. split; [exact Hi | now apply Hpe].
        -- right. eauto.
    + rewrite Hsug, judge_suggestions. split.
      * intros [[H | [Hi Hstrong]] | (d' & Hd' & Hi & Hp)]; auto.
        -- right. exists d. repeat split; [left | exact Hi | now apply Hps].
        -- right. exists d'. repeat split; [now right | exact Hi | exact Hp].
      * intros [H | (d' & Hd' & Hi & Hp)]; auto.
        apply elem_of_cons in Hd' as [-> | Hd'].
        -- left. right. split; [exact Hi | now apply Hps].
        -- right. eauto.
Qed.

(** When some definition has no effect, the walk throws at the first such
    definition. *)
Lemma checkDefinitions_missing (effects : gmap Z Effect) (ds : list TntOpDef) :
  (exists d, d ∈ ds /\ effects !! id d = None) ->
  forall out, exists before d after,
    ds = before ++ d :: after
    /\ (forall d', d' ∈ before -> is_Some (effects !! id d'))
    /\ effects !! id d = None
    /\ checkDefinitions effects ds out
       = Throw (Error ("effect not found for definition " +:+ name d)).
Proof.
  induction ds as [| d ds IH]; intros (d0 & Hd0 & Hnone) out.
  - now apply elem_of_nil in Hd0.
  - simpl. destruct (effects !! id d) as [effect |] eqn:Heffect.
    + apply elem_of_cons in Hd0 as [-> | Hd0]; [congruence |].
      destruct (reduce_parameterless isAction isTemporal isState effect)
        as (inferred & Hreduce & _).
      rewrite Hreduce. simpl.
      destruct (IH (ex_intro _ d0 (conj Hd0 Hnone)) (judge d inferred out))
        as (before & d1 & rest & -> & Hbefore & Hnone1 & Hthrow).
      exists (d :: before), d1, rest. repeat split; auto.
      intros d' Hd'. apply elem_of_cons in Hd' as [-> | Hd']; eauto.
    + exists [], d, ds. repeat split; auto.
      intros d' Hd'. now apply elem_of_nil in Hd'.
Qed.

(** C5: when every definition has an effect, [checkModes] returns either a
    failure carrying a non-empty error map, and then some definition
    produced an error, or a success carrying the suggestion map, and then
    no definition produced an error; the maps hold entries exactly for the
    definitions that produced them; and on a module without definitions
    the result is a success carrying the empty suggestion map. *)
Theorem checkModes_result (tntModule : TntModule) (effects : gmap Z Effect) :
  (forall d, d ∈ defs tntModule -> is_Some (effects !! id d)) ->
  ((exists errs,
       checkModes tntModule effects = Normal (inl errs)
       /\ errs <> ∅
       /\ (exists d, d ∈ defs tntModule /\ producesError effects d)
       /\ (forall i, is_Some (errs !! i) <->
                     exists d, d ∈ defs tntModule /\ id d = i
                               /\ producesError effects d))
   \/ (exists suggs,
       checkModes tntModule effects = Normal (inr suggs)
       /\ (forall d, d ∈ defs tntModule -> ~ producesError effects d)
       /\ (forall i, is_Some (suggs !! i) <->
                     exists d, d ∈ defs tntModule /\ id d = i
                               /\ producesSuggestion effects d)))
  /\ (defs tntModule = [] -> checkModes tntModule effects = Normal (inr ∅)).
Proof.
  intros Hall. rewrite checkModes_pure. unfold checkModesPure. split.
  - destruct (checkDefinitions_total effects (defs tntModule) Hall (∅, ∅))
      as ([errs suggs] & -> & Herr & Hsug).
    simpl in *. case_bool_decide as Hempty.
    + right. exists suggs. split; [reflexivity |]. split.
      * intros d Hd Hp.
        assert (is_Some (errs !! id d)) as [t Ht] by (apply Herr; eauto).
        subst errs. now rewrite lookup_empty in Ht.
      * intros i. rewrite Hsug, lookup_empty. split; [| auto].
        intros [[? H] | H]; [discriminate H | exact H].
    + left. exists errs. split; [reflexivity |]. split; [exact Hempty |].
      assert (forall i, is_Some (errs !! i) <->
                exists d, d ∈ defs tntModule /\ id d = i
                          /\ producesError effects d) as Herr'.
      { intros i. rewrite Herr, lookup_empty. split; [| auto].
        intros [[? H] | H]; [discriminate H | exact H]. }
      split; [| exact Herr'].
      destruct (map_choose errs Hempty) as (i & t & Ht).
      destruct (proj1 (Herr' i)) as (d & Hd & _ & Hp); eauto.
  - intros ->. reflexivity.
Qed.

(** C6: when some definition of the module has no entry in the effect map,
    [checkModes] throws the error that names such a definition, the first
    one in the walk, and returns no map; when every definition has an
    entry, the walk reaches the end of the module, and every definition
    that produces an error or a suggestion has its entry, whatever the
    definitions before it produced. *)
Theorem checkModes_missing_effect (tntModule : TntModule)
  (effects : gmap Z Effect) :
  ((exists d, d ∈ defs tntModule /\ effects !! id d = None) ->
   exists before d after,
     defs tntModule = before ++ d :: after
     /\ (forall d', d' ∈ before -> is_Some (effects !! id d'))
     /\ effects !! id d = None
     /\ checkModes tntModule effects
        = Throw (Error ("effect not found for definition " +:+ name d)))
  /\ ((forall d, d ∈ defs tntModule -> is_Some (effects !! id d)) ->
      exists visitor,
        walkModule (newModeCheckerVisitor effects) tntModule = Normal visitor
        /\ forall d, d ∈ defs tntModule ->
             (producesError effects d -> is_Some (errors visitor !! id d))
             /\ (producesSuggestion effects d ->
                 is_Some (suggestions visitor !! id d))).
Proof.
  split.
  - intros Hmissing.
    destruct (checkDefinitions_missing effects (defs tntModule) Hmissing (∅, ∅))
      as (before & d & rest & Hsplit & Hbefore & Hnone & Hthrow).
    exists before, d, rest. repeat split; auto.
    rewrite checkModes_pure. unfold checkModesPure. now rewrite Hthrow.
  - intros Hall. unfold walkModule.
    rewrite forEach_exitOpDef by reflexivity. simpl.
    destruct (checkDefinitions_total effects (defs tntModule) Hall (∅, ∅))
      as (out & -> & Herr & Hsug).
    eexists. split; [reflexivity |]. simpl.
    intros d Hd. split; intros Hp; [apply Herr | apply Hsug]; eauto.
Qed.

(** C8: two invocations of [checkModes] in a row on the same module and
    effect map give the same result; the result is the pure aggregation in
    which each definition is judged on its own effect, reduced from a fresh
    accumulator; and after any number of definitions of a walk the
    accumulator is back at staticval. *)
Theorem checkModes_deterministic (tntModule : TntModule)
  (effects : gmap Z Effect) :
  checkModesTwice tntModule effects
  = (result ← checkModes tntModule effects; Normal (result, result))
  /\ checkModes tntModule effects = checkModesPure tntModule effects
  /\ forall n,
       match forEach exitOpDef (take n (defs tntModule))
                     (newModeCheckerVisitor effects) with
       | Normal visitor => currentMode (modeFinderVisitor visitor) = staticval
       | Throw _ => True
       end.
Proof.
  split; [| split].
  - unfold checkModesTwice.
    now destruct (checkModes tntModule effects).
  - apply checkModes_pure.
  - intros n. rewrite forEach_exitOpDef by reflexivity. simpl.
    now destruct (checkDefinitions effects (take n (defs tntModule)) (∅, ∅)).
Qed.

End ModeCheckerFacts.

(** * The check command of the Apalache front end *)

Section VerifierFacts.

Import Verifier.

Context (JSON_parse : string -> Completion any).
Context (JSON_stringify : any -> string).

Local Abbreviation checkResponse := (checkResponse JSON_parse).
Local Abbreviation check := (check JSON_parse JSON_stringify).

Lemma check_checkResponse (cmdExecutor : AsyncCmdExecutor) (c : any)
  (response : RunResponse) :
  run cmdExecutor {| cmd := "CHECK"; config := JSON_stringify c |}
  = Normal response ->
  check cmdExecutor c = checkResponse response.
Proof. intros H. unfold check. now rewrite H. Qed.

Lemma getProp_object (fields : list (string * any)) (p : string) :
  getProp (JObject fields) p = Normal (default JUndefined (lookupField p fields)).
Proof. reflexivity. Qed.

Lemma isString_false (v : any) (s : string) :
  v <> JString s -> isString v s = false.
Proof.
  destruct v as [| | b | n | s' | l | fields]; simpl; try reflexivity.
  intros Hne. apply String.eqb_neq. congruence.
Qed.

(** What [handleVerificationFailure] does on an object. *)
Lemma handleVerificationFailure_bounded (fields error_fields : list (string * any))
  (tag explanation : string) :
  lookupField "pass_name" fields = Some (JString "BoundedChecker") ->
  lookupField "error_data" fields = Some (JObject error_fields) ->
  lookupField "checking_result" error_fields = Some (JString tag) ->
  (tag = "Error" /\ explanation = "found a counterexample")
  \/ (tag = "Deadlock" /\ explanation = "reached a deadlock") ->
  handleVerificationFailure (JObject fields)
  = Normal {| explanation := JString explanation; errors := [];
              traces := default JUndefined
                          (lookupField "counterexamples" error_fields) |}.
Proof.
  intros Hpass Hdata Hresult Htag. unfold handleVerificationFailure.
  rewrite (getProp_object fields "pass_name"), Hpass. simpl.
  rewrite Hdata. simpl. rewrite Hresult. simpl.
  destruct Htag as [[-> ->] | [-> ->]]; reflexivity.
Qed.

Lemma handleVerificationFailure_other_pass (fields : list (string * any)) :
  lookupField "pass_name" fields <> Some (JString "BoundedChecker") ->
  handleVerificationFailure (JObject fields)
  = Throw (Error ("internal error: unhandled verification error at pass "
                  +:+ toString (default JUndefined
                                  (lookupField "pass_name" fields)))).
Proof.
  intros Hpass. unfold handleVerificationFailure.
  rewrite (getProp_object fields "pass_name"). simpl.
  rewrite isString_false; [reflexivity |].
  destruct (lookupField "pass_name" fields); simpl; congruence.
Qed.

(** C10, as the code has it: once the run command has answered, [check]
    returns the success value for a success response; for an UNEXPECTED
    failure whose data parses to an object it returns a failure value with
    the object's msg; for a PASS_FAILURE whose data parses to an object
    with pass_name BoundedChecker and checking_result Error or Deadlock it
    returns a failure value with the explanation and the counterexample
    traces; for a failure of any other type it returns a failure value
    with the type and the data; and for a PASS_FAILURE whose pass_name is
    not BoundedChecker it throws, the internal error that names the pass
    when the pass_name is a string, and the internal error at pass
    undefined when there is no pass_name. *)
Theorem check_outcome (cmdExecutor : AsyncCmdExecutor) (c : any)
  (response : RunResponse) :
  run cmdExecutor {| cmd := "CHECK"; config := JSON_stringify c |}
  = Normal response ->
  (response = success -> check cmdExecutor c = Normal (inr tt))
  /\ (forall data fields,
        response = failure "UNEXPECTED" data ->
        JSON_parse data = Normal (JObject fields) ->
        check cmdExecutor c
        = Normal (inl {| explanation :=
                           default JUndefined (lookupField "msg" fields);
                         errors := []; traces := JUndefined |}))
  /\ (forall data fields error_fields tag explanation,
        response = failure "PASS_FAILURE" data ->
        JSON_parse data = Normal (JObject fields) ->
        lookupField "pass_name" fields = Some (JString "BoundedChecker") ->
        lookupField "error_data" fields = Some (JObject error_fields) ->
        lookupField "checking_result" error_fields = Some (JString tag) ->
        (tag = "Error" /\ explanation = "found a counterexample")
        \/ (tag = "Deadlock" /\ explanation = "reached a deadlock") ->
        check cmdExecutor c
        = Normal (inl {| explanation := JString explanation; errors := [];
                         traces := default JUndefined
                                     (lookupField "counterexamples"
                                        error_fields) |}))
  /\ (forall errorType data,
        response = failure errorType data ->
        errorType <> "UNEXPECTED" -> errorType <> "PASS_FAILURE" ->
        check cmdExecutor c
        = Normal (inl {| explanation := JString (errorType +:+ ": " +:+ data);
                         errors := []; traces := JUndefined |}))
  /\ (forall data fields,
        response = failure "PASS_FAILURE" data ->
        JSON_parse data = Normal (JObject fields) ->
        lookupField "pass_name" fields <> Some (JString "BoundedChecker") ->
        (exists error, check cmdExecutor c = Throw error)
        /\ (forall pass,
              lookupField "pass_name" fields = Some (JString pass) ->
              check cmdExecutor c
              = Throw (Error
                  ("internal error: unhandled verification error at pass "
                   +:+ pass)))
        /\ (lookupField "pass_name" fields = None ->
            check cmdExecutor c
            = Throw (Error
                "internal error: unhandled verification error at pass undefined"))).
Proof.
  intros Hrun. rewrite (check_checkResponse _ _ _ Hrun).
  split; [| split; [| split; [| split]]].
  - intros ->. reflexivity.
  - intros data fields -> Hparse. simpl. now rewrite Hparse.
  - intros data fields error_fields tag explanation -> Hparse Hpass Hdata
      Hresult Htag. simpl. rewrite Hparse. simpl.
    now rewrite (handleVerificationFailure_bounded fields error_fields tag
                   explanation Hpass Hdata Hresult Htag).
  - intros errorType data -> Hne1 Hne2. simpl.
    apply String.eqb_neq in Hne1, Hne2. now rewrite Hne1, Hne2.
  - intros data fields -> Hparse Hpass. simpl. rewrite Hparse. simpl.
    rewrite (handleVerificationFailure_other_pass fields Hpass). simpl.
    split; [eexists; reflexivity |].
    split; [intros pass Hname | intros Hname]; now rewrite Hname.
Qed.

End VerifierFacts.

(** * The theorems at concrete inputs *)

Lemma moreGeneralMode_lattice_witness :
  modeLe staticval val /\ modeLe val temporal /\ modeLe staticval temporal.
Proof.
  assert (modeLe staticval val) as H1 by reflexivity.
  assert (modeLe val temporal) as H2 by reflexivity.
  split; [exact H1 |]. split; [exact H2 |].
  exact (proj1 (proj2 (proj2 (proj2 (proj2 moreGeneralMode_lattice))))
           staticval val temporal H1 H2).
Defined.

Lemma exitOpDef_outcome_witness :
  let this :=
    newModeCheckerVisitor Examples.effectsOfF in
  effects this !! id Examples.f = Some (EConcrete Examples.readsX)
  /\ currentMode (modeFinderVisitor this) = staticval
  /\ exists this',
       exitOpDef updatesState isTemporalFormula readsState Examples.printName
         this Examples.f = Normal this'
       /\ errors this' !! 1
          = Some {| location := "Checking modes for f";
                    message := "Expected val mode, found: staticval";
                    children := [] |}
       /\ suggestions this' = ∅.
Proof.
  intros this.
  assert (effects this !! id Examples.f = Some (EConcrete Examples.readsX))
    as Heffect by reflexivity.
  assert (currentMode (modeFinderVisitor this) = staticval)
    as Hfresh by reflexivity.
  split; [exact Heffect |]. split; [exact Hfresh |].
  destruct (exitOpDef_outcome updatesState isTemporalFormula readsState
              Examples.printName this Examples.f _ Heffect Hfresh)
    as (inferred & this' & Hreduce & Hexit & _ & Hweak & _).
  injection Hreduce as <-.
  destruct Hweak as [Herrors Hsuggestions];
    [split; [discriminate | reflexivity] |].
  exists this'. split; [exact Hexit |]. rewrite Herrors, Hsuggestions.
  split; [apply lookup_insert_eq | reflexivity].
Defined.

Lemma checkModes_result_witness :
  let tntModule := {| defs := [Examples.f; Examples.g] |} in
  (forall d, d ∈ defs tntModule -> is_Some (Examples.effectsOfFG !! id d))
  /\ exists errs,
       checkModes updatesState isTemporalFormula readsState Examples.printName
         tntModule Examples.effectsOfFG = Normal (inl errs)
       /\ errs <> ∅.
Proof.
  intros tntModule.
  assert (forall d, d ∈ defs tntModule ->
                    is_Some (Examples.effectsOfFG !! id d)) as Hall.
  { intros d Hd. simpl in Hd.
    apply elem_of_cons in Hd as [-> | Hd];
      [| apply list_elem_of_singleton in Hd as ->];
      eexists; reflexivity. }
  split; [exact Hall |].
  destruct (checkModes_result updatesState isTemporalFormula readsState
              Examples.printName tntModule Examples.effectsOfFG Hall)
    as [[(errs & Hrun & Hne & _) | (suggs & Hrun & _)] _].
  - exists errs. split; [exact Hrun | exact Hne].
  - vm_compute in Hrun. discriminate Hrun.
Defined.

Lemma checkModes_missing_effect_witness :
  (exists d, d ∈ [Examples.f; Examples.g]
             /\ Examples.effectsOfF !! id d = None)
  /\ (exists d,
        Examples.effectsOfF !! id d = None
        /\ checkModes updatesState isTemporalFormula readsState
             Examples.printName {| defs := [Examples.f; Examples.g] |}
             Examples.effectsOfF
           = Throw (Error ("effect not found for definition " +:+ name d)))
  /\ (forall d, d ∈ [Examples.f; Examples.g] ->
                is_Some (Examples.effectsOfFG !! id d))
  /\ exists visitor,
       walkModule updatesState isTemporalFormula readsState Examples.printName
         (newModeCheckerVisitor Examples.effectsOfFG)
         {| defs := [Examples.f; Examples.g] |} = Normal visitor
       /\ is_Some (errors visitor !! 1)
       /\ is_Some (suggestions visitor !! 2).
Proof.
  pose proof (checkModes_missing_effect updatesState isTemporalFormula
                readsState Examples.printName
                {| defs := [Examples.f; Examples.g] |} Examples.effectsOfF)
    as [Hthrow _].
  pose proof (checkModes_missing_effect updatesState isTemporalFormula
                readsState Examples.printName
                {| defs := [Examples.f; Examples.g] |} Examples.effectsOfFG)
    as [_ Hwalk].
  assert (exists d, d ∈ [Examples.f; Examples.g]
                    /\ Examples.effectsOfF !! id d = None) as Hmissing.
  { exists Examples.g. split; [right; left | reflexivity]. }
  assert (forall d, d ∈ [Examples.f; Examples.g] ->
                    is_Some (Examples.effectsOfFG !! id d)) as Hall.
  { intros d Hd.
    apply elem_of_cons in Hd as [-> | Hd];
      [| apply list_elem_of_singleton in Hd as ->];
      eexists; reflexivity. }
  split; [exact Hmissing |]. split; [| split; [exact Hall |]].
  - destruct (Hthrow Hmissing) as (before & d & rest & _ & _ & Hnone & Hrun).
    exists d. split; [exact Hnone | exact Hrun].
  - destruct (Hwalk Hall) as (visitor & Hrun & Hentries).
    exists visitor. split; [exact Hrun |]. split.
    + apply (proj1 (Hentries Examples.f ltac:(left))).
      exists (EConcrete Examples.readsX), val.
      repeat split; discriminate.
    + apply (proj2 (Hentries Examples.g ltac:(right; left))).
      exists (EConcrete Examples.readsX), val.
      repeat split; discriminate.
Defined.

(** The bounded checker found a counterexample: [check] returns the failure
    value with the explanation and the traces. *)
Lemma check_outcome_witness :
  let response := Verifier.failure "PASS_FAILURE" VerifierExamples.counterexampleData in
  Verifier.run (VerifierExamples.answering response)
    {| Verifier.cmd := "CHECK";
       Verifier.config := Verifier.stringifyJSON VerifierExamples.emptyConfig |}
  = Normal response
  /\ Verifier.check Verifier.parseJSON Verifier.stringifyJSON
       (VerifierExamples.answering response) VerifierExamples.emptyConfig
     = Normal (inl {| Verifier.explanation :=
                        Verifier.JString "found a counterexample";
                      Verifier.errors := [];
                      Verifier.traces :=
                        Verifier.JArray [Verifier.JObject []] |}).
Proof.
  intros response.
  assert (Verifier.run (VerifierExamples.answering response)
            {| Verifier.cmd := "CHECK";
               Verifier.config := Verifier.stringifyJSON VerifierExamples.emptyConfig |}
          = Normal response) as Hrun by reflexivity.
  split; [exact Hrun |].
  destruct (check_outcome Verifier.parseJSON Verifier.stringifyJSON
              (VerifierExamples.answering response) VerifierExamples.emptyConfig response Hrun)
    as (_ & _ & Hpass & _).
  apply (Hpass VerifierExamples.counterexampleData
           [("pass_name", Verifier.JString "BoundedChecker");
            ("error_data",
             Verifier.JObject
               [("checking_result", Verifier.JString "Error");
                ("counterexamples", Verifier.JArray [Verifier.JObject []])])]
           [("checking_result", Verifier.JString "Error");
            ("counterexamples", Verifier.JArray [Verifier.JObject []])]
           "Error" "found a counterexample");
    try reflexivity.
  left. split; reflexivity.
Defined.

(** A failure of a pass other than the bounded checker: the run command has
    answered, and [check] throws instead of returning a value. *)
Lemma check_throws_on_other_pass :
  let response := Verifier.failure "PASS_FAILURE" VerifierExamples.otherPassData in
  Verifier.run (VerifierExamples.answering response)
    {| Verifier.cmd := "CHECK";
       Verifier.config := Verifier.stringifyJSON VerifierExamples.emptyConfig |}
  = Normal response
  /\ Verifier.parseJSON VerifierExamples.otherPassData
     = Normal (Verifier.JObject
                 [("pass_name", Verifier.JString "TypeCheckerSnowcat");
                  ("error_data", Verifier.JObject [])])
  /\ Verifier.check Verifier.parseJSON Verifier.stringifyJSON
       (VerifierExamples.answering response) VerifierExamples.emptyConfig
     = Throw (Error
         "internal error: unhandled verification error at pass TypeCheckerSnowcat")
  /\ ~ returns (Verifier.check Verifier.parseJSON Verifier.stringifyJSON
                  (VerifierExamples.answering response) VerifierExamples.emptyConfig).
Proof.
  repeat split; try reflexivity.
  intros [value Hvalue]. vm_compute in Hvalue. discriminate Hvalue.
Qed.

(** * Further properties of the mode lattice and the reducer *)

(** X1: [moreGeneralMode] is commutative and associative, staticval is also
    its right identity, and the order it induces is antisymmetric. *)
Theorem moreGeneralMode_semilattice :
  (forall a b, moreGeneralMode a b = moreGeneralMode b a)
  /\ (forall a b c, moreGeneralMode a (moreGeneralMode b c)
                    = moreGeneralMode (moreGeneralMode a b) c)
  /\ (forall a, moreGeneralMode a staticval = a)
  /\ (forall a b, moreGeneralMode a b = b /\ moreGeneralMode b a = a <-> a = b).
Proof.
  split; [| split; [| split]].
  - intros a b. now destruct a, b.
  - intros a b c. now destruct a, b, c.
  - intros a. now destruct a.
  - intros a b. split.
    + intros [H1 H2]. destruct a, b; try reflexivity; discriminate.
    + intros ->. now destruct b.
Qed.

Lemma moreGeneralMode_comm (a b : OpQualifier) :
  moreGeneralMode a b = moreGeneralMode b a.
Proof. now destruct a, b. Qed.

Lemma moreGeneralMode_assoc (a b c : OpQualifier) :
  moreGeneralMode a (moreGeneralMode b c)
  = moreGeneralMode (moreGeneralMode a b) c.
Proof. now destruct a, b, c. Qed.

Lemma moreGeneralMode_staticval_r (a : OpQualifier) :
  moreGeneralMode a staticval = a.
Proof. now destruct a. Qed.

Lemma mostGeneral_app (l1 l2 : list OpQualifier) :
  mostGeneral (l1 ++ l2) = moreGeneralMode (mostGeneral l1) (mostGeneral l2).
Proof.
  unfold mostGeneral. induction l1 as [| m l1 IH]; simpl.
  - now destruct (foldr moreGeneralMode staticval l2).
  - now rewrite IH, moreGeneralMode_assoc.
Qed.

Lemma mostGeneral_permutation (l1 l2 : list OpQualifier) :
  l1 ≡ₚ l2 -> mostGeneral l1 = mostGeneral l2.
Proof.
  unfold mostGeneral. induction 1 as [| m l1 l2 _ IH | a b l | l1 l2 l3 _ IH1 _ IH2];
    simpl.
  - reflexivity.
  - now rewrite IH.
  - rewrite !moreGeneralMode_assoc. f_equal. apply moreGeneralMode_comm.
  - now rewrite IH1.
Qed.

Lemma leaves_arrow (params : list Effect) (result : Effect) :
  leaves (EArrow params result) = concat (map leaves params) ++ leaves result.
Proof.
  simpl. f_equal.
  induction params as [| p ps IH]; simpl; [reflexivity | now rewrite IH].
Qed.

Section ReducerFacts.

Context (isAction isTemporal isState : ConcreteEffect -> bool).

Local Abbreviation finderV := (ModeFinder_visitor isAction isTemporal isState).
Local Abbreviation concreteMode := (concreteMode isAction isTemporal isState).
Local Abbreviation reduce := (reduce isAction isTemporal isState).
Local Abbreviation accumulates := (accumulates isAction isTemporal isState).

Lemma mostGeneral_parameterless (cs : list ConcreteEffect) :
  parameterless (mostGeneral (map concreteMode cs)).
Proof.
  induction cs as [| c cs IH]; simpl; [now left |].
  apply parameterless_moreGeneralMode; [| exact IH].
  apply concreteMode_parameterless.
Qed.

Lemma walkParams_accumulates (params : list Effect) :
  Forall accumulates params ->
  forall this : ModeFinderVisitor,
    parameterless (currentMode this) ->
    walkParams (V := finderV) params this
    = Normal {| currentMode :=
                  moreGeneralMode (currentMode this)
                    (mostGeneral
                       (map concreteMode (concat (map leaves params)))) |}.
Proof.
  induction 1 as [| p ps Hp _ IH]; intros this Hthis; unfold walkParams in *;
    simpl.
  - rewrite moreGeneralMode_staticval_r. now destruct this.
  - rewrite (Hp this Hthis). simpl. rewrite IH; simpl.
    + now rewrite map_app, mostGeneral_app, moreGeneralMode_assoc.
    + apply parameterless_moreGeneralMode; [exact Hthis |].
      apply mostGeneral_parameterless.
Qed.

Lemma walkEffect_accumulates (effect : Effect) : accumulates effect.
Proof.
  induction effect as [c | params result IHparams IHresult]
    using Effect_induction; intros this Hthis.
  - simpl. unfold exitConcrete. now rewrite moreGeneralMode_staticval_r.
  - rewrite leaves_arrow, walkEffect_arrow,
      (walkParams_accumulates params IHparams this Hthis).
    cbn [mbind Completion_bind].
    assert (parameterless
              (moreGeneralMode (currentMode this)
                 (mostGeneral (map concreteMode (concat (map leaves params))))))
      as H1
      by (apply parameterless_moreGeneralMode;
          [exact Hthis | apply mostGeneral_parameterless]).
    rewrite (IHresult {| currentMode := _ |} H1).
    cbn [mbind Completion_bind EffectVisitor.exitArrow ModeFinder_visitor
         currentMode].
    rewrite exitArrow_parameterless.
    + now rewrite map_app, mostGeneral_app, !moreGeneralMode_assoc.
    + simpl. apply parameterless_moreGeneralMode;
        [exact H1 | apply mostGeneral_parameterless].
Qed.

Lemma reduce_leaves (effect : Effect) :
  reduce effect = Normal (mostGeneral (map concreteMode (leaves effect))).
Proof.
  unfold reduce.
  rewrite (walkEffect_accumulates effect newModeFinderVisitor) by now left.
  simpl. f_equal.
  now destruct (mostGeneral (map concreteMode (leaves effect))).
Qed.

(** X2: the mode the reducer infers for an effect is the most general class
    among the concrete nodes of the tree, staticval when there is none; the
    mode is at least as general as the class of every concrete node, and
    the arrows contribute nothing. *)
Theorem reduce_mostGeneral (effect : Effect) :
  reduce effect = Normal (mostGeneral (map concreteMode (leaves effect)))
  /\ Forall (fun c => position (concreteMode c)
                      <= position (mostGeneral
                                     (map concreteMode (leaves effect))))
            (leaves effect)
  /\ (mostGeneral (map concreteMode (leaves effect)) = staticval
      \/ Exists (fun c => concreteMode c
                          = mostGeneral (map concreteMode (leaves effect)))
                (leaves effect)).
Proof.
  split; [apply reduce_leaves |].
  induction (leaves effect) as [| c cs [IH1 IH2]]; simpl.
  - split; [constructor | now left].
  - change (foldr moreGeneralMode staticval (map concreteMode cs))
      with (mostGeneral (map concreteMode cs)).
    set (rest := mostGeneral (map concreteMode cs)) in *.
    rewrite moreGeneralMode_position.
    destruct (Z.gtb_spec (position (concreteMode c)) (position rest)) as [Hgt | Hle].
    + split.
      * constructor; [lia |]. eapply Forall_impl; [exact IH1 |].
        intros c'. simpl. lia.
      * right. now left.
    + split.
      * constructor; [exact Hle | exact IH1].
      * destruct IH2 as [Hs | Hex]; [now left | right; now right].
Qed.

(** X3: two effects with the same concrete nodes, in any order and under
    any nesting of arrows, reduce to the same mode. *)
Theorem reduce_permutation (effect1 effect2 : Effect) :
  leaves effect1 ≡ₚ leaves effect2 -> reduce effect1 = reduce effect2.
Proof.
  intros Hperm. rewrite !reduce_leaves. f_equal.
  apply mostGeneral_permutation. now apply fmap_Permutation.
Qed.

(** X4: walked from an accumulator that is neither staticdef nor def, an
    effect leaves the more general of that accumulator and the mode the
    effect reduces to on its own; the accumulator never goes down. *)
Theorem walkEffect_joins (this : ModeFinderVisitor) (effect : Effect) :
  currentMode this <> staticdef -> currentMode this <> def ->
  exists inferred,
    reduce effect = Normal inferred
    /\ walkEffect (V := finderV) this effect
       = Normal {| currentMode := moreGeneralMode (currentMode this) inferred |}
    /\ position (currentMode this)
       <= position (moreGeneralMode (currentMode this) inferred).
Proof.
  intros H1 H2.
  assert (parameterless (currentMode this)) as Hthis
    by (apply parameterless_not_def; auto).
  exists (mostGeneral (map concreteMode (leaves effect))).
  split; [apply reduce_leaves |]. split; [now apply walkEffect_accumulates |].
  rewrite moreGeneralMode_position.
  destruct (Z.gtb_spec (position (currentMode this))
              (position (mostGeneral (map concreteMode (leaves effect)))));
    lia.
Qed.

End ReducerFacts.

(** * Further properties of the arrow rule *)

Lemma addable_dec (p : Effect) : {addable p} + {~ addable p}.
Proof.
  destruct p as [c | ps r]; simpl; [| now left].
  destruct (isUnion (read c)); [| now left; left].
  destruct (variablesOf (read c)) as [| v vs]; [now left; right |].
  right. intros [H | H]; discriminate H.
Qed.

Lemma forEach_addParamReads_spec (params : list Effect)
  (paramReads : VariablesSet) :
  Forall addable params ->
  forEach addParamReads params paramReads
  = Normal (paramReadsSpec params ∪ paramReads).
Proof.
  exact (forEach_addParamReads (fun _ => false) (fun _ => false)
           (fun _ => false) params paramReads).
Qed.

Lemma exitArrow_fires_not_parameterless (this : ModeFinderVisitor) :
  currentMode this = staticdef \/ currentMode this = def ->
  bool_decide (currentMode this <> staticdef)
  && bool_decide (currentMode this <> def) = false.
Proof. intros [-> | ->]; reflexivity. Qed.

(** X5: [exitArrow] throws exactly when it is entered with the accumulator
    at staticdef or def and some concrete parameter has a union with
    members as its read payload; the exception is then the TypeError of
    [Set.prototype.add] called without a receiver.  In every other case it
    returns. *)
Theorem exitArrow_throws_iff (this : ModeFinderVisitor)
  (params : list Effect) (result : Effect) :
  (exitArrow this params result
   = Throw (TypeError
       "Method Set.prototype.add called on incompatible receiver undefined")
   <-> (currentMode this = staticdef \/ currentMode this = def)
       /\ Exists (fun p => ~ addable p) params)
  /\ (returns (exitArrow this params result)
      <-> ~ ((currentMode this = staticdef \/ currentMode this = def)
             /\ Exists (fun p => ~ addable p) params)).
Proof.
  assert (currentMode this = staticdef \/ currentMode this = def
          \/ parameterless (currentMode this)) as [Hm | [Hm | Hm]]
    by (unfold parameterless; destruct (currentMode this); auto 10).
  3: { rewrite (exitArrow_parameterless this params result Hm).
       apply parameterless_not_def in Hm as [H1 H2].
       split.
       - split; [discriminate | intros [[H | H] _]; contradiction].
       - split; [intros _ [[H | H] _]; contradiction
                | intros _; now exists this]. }
  all: assert (currentMode this = staticdef \/ currentMode this = def)
         as Hfire by auto.
  all: destruct (Forall_Exists_dec addable (fun p => ~ addable p)
                   addable_dec params) as [Hall | Hex].
  2, 4: rewrite (exitArrow_union_parameter_throws this params result Hfire Hex);
    (split;
     [ split; [intros _; auto | reflexivity]
     | split; [intros [? H]; discriminate H | intros H; destruct H; auto] ]).
  all: assert (returns (exitArrow this params result)) as [this' Hret].
  1, 3: unfold exitArrow;
    rewrite (exitArrow_fires_not_parameterless _ Hfire),
      (forEach_addParamReads_spec _ _ Hall); simpl;
    (destruct result as [r | ? ?]; [| eexists; reflexivity]);
    (destruct (isUnion (read r) && negb (forallb _ (variablesOf (read r))));
     [eexists; reflexivity |]);
    destruct (negb (has _ (read r))); eexists; reflexivity.
  all: assert (~ Exists (fun p => ~ addable p) params) as Hno
         by (rewrite Exists_exists; intros (p & Hp & Hpn);
             rewrite Forall_forall in Hall; exact (Hpn (Hall p Hp))).
  all: rewrite Hret; split;
    [ split; [discriminate | intros [_ Hex]; contradiction]
    | split; [intros _ [_ Hex]; contradiction | intros _; now exists this'] ].
Qed.

(** X6: entered with the accumulator at staticdef or def, and with
    parameters it can add, [exitArrow] forgets the accumulator and leaves
    staticdef or def, decided by the parameters and the result alone:
    staticdef for a result that is itself an arrow; for a concrete result
    with a payload that is not a union, staticdef exactly when that payload
    is among the parameters' reads; for a concrete result with a union
    payload, staticdef exactly when every member and the union object
    itself are among the parameters' reads. *)
Theorem exitArrow_fired (this : ModeFinderVisitor) (params : list Effect)
  (result : Effect) :
  currentMode this = staticdef \/ currentMode this = def ->
  Forall addable params ->
  exists mode,
    exitArrow this params result = Normal {| currentMode := mode |}
    /\ (mode = staticdef \/ mode = def)
    /\ (forall ps r, result = EArrow ps r -> mode = staticdef)
    /\ (forall c, result = EConcrete c -> isUnion (read c) = false ->
        (mode = staticdef <-> refOf (read c) ∈ paramReadsSpec params))
    /\ (forall c, result = EConcrete c -> isUnion (read c) = true ->
        (mode = staticdef <->
         refOf (read c) ∈ paramReadsSpec params
         /\ Forall (fun v => refOf v ∈ paramReadsSpec params)
                   (variablesOf (read c)))).
Proof.
  intros Hfire Hall. unfold exitArrow.
  rewrite (exitArrow_fires_not_parameterless _ Hfire),
    (forEach_addParamReads_spec _ _ Hall). simpl.
  rewrite (right_id_L ∅ (∪)). set (P := paramReadsSpec params).
  destruct result as [r | ps0 r0].
  - destruct (isUnion (read r)) eqn:Hunion; simpl.
    + destruct (forallb (fun v => has P v) (variablesOf (read r))) eqn:Hmembers;
        simpl.
      * pose proof (proj1 (forallb_has P _) Hmembers) as Hin.
        unfold has. case_bool_decide as Hself; simpl.
        -- exists staticdef.
           split; [reflexivity |]. split; [now left |].
           split; [discriminate |]. split.
           ++ intros c' [= <-] Hno. congruence.
           ++ intros c' [= <-] _. split; [| reflexivity].
              intros _. split; [exact Hself |].
              apply Forall_forall. intros v Hv.
              now apply Hin.
        -- exists def.
           split; [reflexivity |]. split; [now right |].
           split; [discriminate |]. split.
           ++ intros c' [= <-] Hno. congruence.
           ++ intros c' [= <-] _. split; [discriminate |].
              intros [Hs _]. contradiction.
      * exists def.
        split; [reflexivity |]. split; [now right |].
        split; [discriminate |]. split.
        -- intros c' [= <-] Hno. congruence.
        -- intros c' [= <-] _. split; [discriminate |].
           intros [_ Hf]. rewrite Forall_forall in Hf.
           assert (forallb (fun v => has P v) (variablesOf (read r)) = true)
             as Habs; [| congruence].
           apply forallb_has. intros v Hv. now apply Hf.
    + unfold has. case_bool_decide as Hself; simpl.
      * exists staticdef.
        split; [reflexivity |]. split; [now left |].
        split; [discriminate |]. split.
        -- intros c' [= <-] _. split; [intros _; exact Hself | reflexivity].
        -- intros c' [= <-] Hyes. congruence.
      * exists def.
        split; [reflexivity |]. split; [now right |].
        split; [discriminate |]. split.
        -- intros c' [= <-] _. split; [discriminate | contradiction].
        -- intros c' [= <-] Hyes. congruence.
  - exists staticdef.
    split; [reflexivity |]. split; [now left |].
    split; [reflexivity |]. split; discriminate.
Qed.


(** * Further properties of the definition checker and the module driver *)

Section CheckerFacts.

Context (isAction isTemporal isState : ConcreteEffect -> bool).
Context (definitionToString : TntOpDef -> string).

Local Abbreviation reduce := (reduce isAction isTemporal isState).
Local Abbreviation modeError := (modeError definitionToString).
Local Abbreviation checkModes :=
  (checkModes isAction isTemporal isState definitionToString).
Local Abbreviation judge := (judge definitionToString).
Local Abbreviation checkDefinitions :=
  (checkDefinitions isAction isTemporal isState definitionToString).
Local Abbreviation checkModesPure :=
  (checkModesPure isAction isTemporal isState definitionToString).
Local Abbreviation producesError :=
  (producesError isAction isTemporal isState).
Local Abbreviation producesSuggestion :=
  (producesSuggestion isAction isTemporal isState).

Lemma checkDefinitions_cons (effects : gmap Z Effect) (d : TntOpDef)
  (ds : list TntOpDef) (effect : Effect) (inferred : OpQualifier)
  (out : gmap Z ErrorTree * gmap Z OpQualifier) :
  effects !! id d = Some effect -> reduce effect = Normal inferred ->
  checkDefinitions effects (d :: ds) out
  = checkDefinitions effects ds (judge d inferred out).
Proof. intros Heffect Hreduce. simpl. now rewrite Heffect, Hreduce. Qed.

Lemma judge_commute (d1 d2 : TntOpDef) (m1 m2 : OpQualifier)
  (out : gmap Z ErrorTree * gmap Z OpQualifier) :
  id d1 <> id d2 ->
  judge d1 m1 (judge d2 m2 out) = judge d2 m2 (judge d1 m1 out).
Proof.
  intros Hne. unfold judge.
  repeat case_bool_decide; simpl; try reflexivity;
    f_equal; now apply insert_insert_ne.
Qed.

Lemma checkDefinitions_permutation (effects : gmap Z Effect)
  (ds ds' : list TntOpDef) :
  ds ≡ₚ ds' ->
  NoDup (map id ds) ->
  (forall d, d ∈ ds -> is_Some (effects !! id d)) ->
  forall out, checkDefinitions effects ds out = checkDefinitions effects ds' out.
Proof.
  induction 1 as [| d ds ds' Hperm IH | d1 d2 ds | ds1 ds2 ds3 H12 IH12 H23 IH23];
    intros Hnodup Hall out.
  - reflexivity.
  - destruct (Hall d) as [effect Heffect]; [left |].
    destruct (reduce_parameterless isAction isTemporal isState effect)
      as (inferred & Hreduce & _).
    rewrite !(checkDefinitions_cons _ _ _ _ _ _ Heffect Hreduce).
    apply IH.
    + simpl in Hnodup. now apply NoDup_cons_1_2 in Hnodup.
    + intros d' Hd'. apply Hall. now right.
  - destruct (Hall d1) as [effect1 Heffect1]; [right; left |].
    destruct (Hall d2) as [effect2 Heffect2]; [left |].
    destruct (reduce_parameterless isAction isTemporal isState effect1)
      as (m1 & Hreduce1 & _).
    destruct (reduce_parameterless isAction isTemporal isState effect2)
      as (m2 & Hreduce2 & _).
    rewrite (checkDefinitions_cons _ _ _ _ _ _ Heffect2 Hreduce2),
      (checkDefinitions_cons _ _ _ _ _ _ Heffect1 Hreduce1),
      (checkDefinitions_cons _ _ _ _ _ _ Heffect1 Hreduce1),
      (checkDefinitions_cons _ _ _ _ _ _ Heffect2 Hreduce2).
    f_equal. apply judge_commute.
    simpl in Hnodup. apply NoDup_cons_1_1 in Hnodup.
    intros Heq. apply Hnodup. rewrite Heq. left.
  - rewrite IH12 by assumption. apply IH23.
    + now rewrite <- H12.
    + intros d Hd. apply Hall. now rewrite H12.
Qed.

(** X9: when the definitions of a module have distinct identifiers and all
    have an effect, [checkModes] on the module with its definitions in any
    other order returns a result of the same form, both error maps or both
    suggestion maps, and the two maps give the same value to every
    identifier.  (Nothing is said of the order in which the maps list
    their entries, which follows the order of the definitions.) *)
Theorem checkModes_permutation (effects : gmap Z Effect)
  (ds ds' : list TntOpDef) :
  ds ≡ₚ ds' ->
  NoDup (map id ds) ->
  (forall d, d ∈ ds -> is_Some (effects !! id d)) ->
  (exists errs errs',
      checkModes {| defs := ds |} effects = Normal (inl errs)
      /\ checkModes {| defs := ds' |} effects = Normal (inl errs')
      /\ forall i, errs !! i = errs' !! i)
  \/ (exists suggs suggs',
        checkModes {| defs := ds |} effects = Normal (inr suggs)
        /\ checkModes {| defs := ds' |} effects = Normal (inr suggs')
        /\ forall i, suggs !! i = suggs' !! i).
Proof.
  intros Hperm Hnodup Hall.
  rewrite !(checkModes_pure isAction isTemporal isState definitionToString).
  unfold checkModesPure. simpl.
  rewrite <- (checkDefinitions_permutation effects ds ds' Hperm Hnodup Hall).
  destruct (checkDefinitions_total isAction isTemporal isState
              definitionToString effects ds Hall (∅, ∅))
    as ([errs suggs] & -> & _).
  simpl. case_bool_decide.
  - right. exists suggs, suggs. auto.
  - left. exists errs, errs. auto.
Qed.

Lemma judge_error_entry (d : TntOpDef) (inferred : OpQualifier)
  (out : gmap Z ErrorTree * gmap Z OpQualifier) (i : Z) (t : ErrorTree) :
  fst (judge d inferred out) !! i = Some t ->
  fst out !! i = Some t
  \/ (id d = i /\ tooWeak inferred (qualifier d) /\ t = modeError d inferred).
Proof.
  unfold judge, tooWeak.
  case_bool_decide as Heq; [auto |].
  case_bool_decide as Hweak; simpl; [| auto].
  rewrite lookup_insert_Some. intros [[-> <-] | [_ H]]; auto.
Qed.

Lemma judge_suggestion_entry (d : TntOpDef) (inferred : OpQualifier)
  (out : gmap Z ErrorTree * gmap Z OpQualifier) (i : Z) (m : OpQualifier) :
  snd (judge d inferred out) !! i = Some m ->
  snd out !! i = Some m
  \/ (id d = i /\ tooStrong inferred (qualifier d) /\ m = inferred).
Proof.
  unfold judge, tooStrong.
  case_bool_decide as Heq; [auto |].
  case_bool_decide as Hweak; simpl; [auto |].
  rewrite lookup_insert_Some. intros [[-> <-] | [_ H]]; auto.
  right. repeat split; auto.
  destruct (moreGeneralMode_cases inferred (qualifier d)); congruence.
Qed.

(** Where the entries of the two maps come from. *)
Lemma checkDefinitions_entries (effects : gmap Z Effect) (ds : list TntOpDef) :
  forall out out',
    checkDefinitions effects ds out = Normal out' ->
    (forall i t, fst out' !! i = Some t ->
       fst out !! i = Some t
       \/ exists d effect inferred,
            d ∈ ds /\ id d = i /\ effects !! id d = Some effect
            /\ reduce effect = Normal inferred
            /\ tooWeak inferred (qualifier d) /\ t = modeError d inferred)
    /\ (forall i m, snd out' !! i = Some m ->
          snd out !! i = Some m
          \/ exists d effect,
               d ∈ ds /\ id d = i /\ effects !! id d = Some effect
               /\ reduce effect = Normal m /\ tooStrong m (qualifier d)).
Proof.
  induction ds as [| d ds IH]; intros out out' Hrun; simpl in Hrun.
  - injection Hrun as <-. auto.
  - destruct (effects !! id d) as [effect |] eqn:Heffect; [| discriminate Hrun].
    destruct (reduce effect) as [inferred | e] eqn:Hreduce;
      [| discriminate Hrun].
    simpl in Hrun. destruct (IH _ _ Hrun) as [Herr Hsug]. split.
    + intros i t Ht. destruct (Herr i t Ht) as [Hold | Hnew].
      * apply judge_error_entry in Hold as [Hold | (Hi & Hweak & ->)]; auto.
        right. exists d, effect, inferred. repeat split; auto; try apply Hweak.
        left.
      * destruct Hnew as (d' & effect' & inferred' & Hd' & Hrest).
        right. exists d', effect', inferred'. split; [now right | exact Hrest].
    + intros i m Hm. destruct (Hsug i m Hm) as [Hold | Hnew].
      * apply judge_suggestion_entry in Hold as [Hold | (Hi & Hstrong & ->)];
          auto.
        right. exists d, effect. repeat split; auto; try apply Hstrong. left.
      * destruct Hnew as (d' & effect' & Hd' & Hrest).
        right. exists d', effect'. split; [now right | exact Hrest].
Qed.

Lemma tooWeak_position (inferred declared : OpQualifier) :
  tooWeak inferred declared <-> position declared < position inferred.
Proof.
  unfold tooWeak. rewrite moreGeneralMode_position.
  destruct (Z.gtb_spec (position inferred) (position declared)) as [Hgt | Hle].
  - split; [lia |]. intros _. split; [| reflexivity]. intros ->. lia.
  - split; [intros [Hne ->]; contradiction | lia].
Qed.

Lemma tooStrong_position (inferred declared : OpQualifier) :
  tooStrong inferred declared <-> position inferred < position declared.
Proof.
  unfold tooStrong. rewrite moreGeneralMode_position.
  destruct (Z.gtb_spec (position inferred) (position declared)) as [Hgt | Hle].
  - split; [intros [Hne ->]; contradiction | lia].
  - split.
    + intros [Hne _].
      assert (position inferred <> position declared)
        by (intros Heq; apply Hne; now apply position_inj).
      lia.
    + intros Hlt. split; [| reflexivity]. intros ->. lia.
Qed.

(** X8: every entry of the error map [checkModes] returns is the error of a
    definition of the module with that identifier whose effect reduces to a
    mode strictly more general than its declared qualifier; the mode the
    message expects is val, action or temporal, never staticval, staticdef
    or def. *)
Theorem checkModes_error_entries (tntModule : TntModule)
  (effects : gmap Z Effect) (errs : gmap Z ErrorTree) (i : Z) (t : ErrorTree) :
  checkModes tntModule effects = Normal (inl errs) ->
  errs !! i = Some t ->
  exists d effect inferred,
    d ∈ defs tntModule /\ id d = i /\ effects !! i = Some effect
    /\ reduce effect = Normal inferred
    /\ position (qualifier d) < position inferred
    /\ (inferred = val \/ inferred = action \/ inferred = temporal)
    /\ location t = "Checking modes for " +:+ definitionToString d
    /\ message t = "Expected " +:+ qualifierToString inferred
                   +:+ " mode, found: " +:+ qualifierToString (qualifier d)
    /\ children t = [].
Proof.
  rewrite (checkModes_pure isAction isTemporal isState definitionToString).
  unfold checkModesPure. intros Hrun Ht.
  destruct (checkDefinitions effects (defs tntModule) (∅, ∅))
    as [out | e] eqn:Hwalk; simpl in Hrun; [| discriminate Hrun].
  case_bool_decide as Hempty; [discriminate Hrun |]. injection Hrun as <-.
  destruct (checkDefinitions_entries _ _ _ _ Hwalk) as [Herr _].
  destruct (Herr i t Ht) as [Hold | Hnew];
    [simpl in Hold; now rewrite lookup_empty in Hold |].
  destruct Hnew as (d & effect & inferred & Hd & Hi & Heffect & Hreduce
                    & Hweak & ->).
  exists d, effect, inferred. subst i.
  apply tooWeak_position in Hweak.
  repeat split; auto.
  destruct (reduce_parameterless isAction isTemporal isState effect)
    as (inferred' & Hreduce' & Hp).
  rewrite Hreduce in Hreduce'. injection Hreduce' as <-.
  destruct Hp as [-> | [-> | [-> | ->]]]; auto.
  destruct (qualifier d); simpl in Hweak; lia.
Qed.

(** X10: every entry of the suggestion map [checkModes] returns proposes
    the mode that the effect of a definition of the module with that
    identifier reduces to, a mode strictly less general than the declared
    qualifier; the proposal is staticval, val or action, never staticdef,
    def or temporal. *)
Theorem checkModes_suggestion_entries (tntModule : TntModule)
  (effects : gmap Z Effect) (suggs : gmap Z OpQualifier) (i : Z)
  (m : OpQualifier) :
  checkModes tntModule effects = Normal (inr suggs) ->
  suggs !! i = Some m ->
  (m = staticval \/ m = val \/ m = action)
  /\ exists d effect,
       d ∈ defs tntModule /\ id d = i /\ effects !! i = Some effect
       /\ reduce effect = Normal m
       /\ position m < position (qualifier d).
Proof.
  rewrite (checkModes_pure isAction isTemporal isState definitionToString).
  unfold checkModesPure. intros Hrun Hm.
  destruct (checkDefinitions effects (defs tntModule) (∅, ∅))
    as [out | e] eqn:Hwalk; simpl in Hrun; [| discriminate Hrun].
  case_bool_decide as Hempty; [| discriminate Hrun]. injection Hrun as <-.
  destruct (checkDefinitions_entries _ _ _ _ Hwalk) as [_ Hsug].
  destruct (Hsug i m Hm) as [Hold | Hnew];
    [simpl in Hold; now rewrite lookup_empty in Hold |].
  destruct Hnew as (d & effect & Hd & Hi & Heffect & Hreduce & Hstrong).
  subst i. apply tooStrong_position in Hstrong.
  split.
  - destruct (reduce_parameterless isAction isTemporal isState effect)
      as (m' & Hreduce' & Hp).
    rewrite Hreduce in Hreduce'. injection Hreduce' as <-.
    destruct Hp as [-> | [-> | [-> | ->]]]; auto.
    destruct (qualifier d); simpl in Hstrong; lia.
  - exists d, effect. repeat split; auto.
Qed.

(** X7: a definition declared staticdef or def is never accepted.  When
    every definition of the module has an effect and one of them is
    declared staticdef or def, [checkModes] returns the error map, or else
    a suggestion map with an entry for that definition; it never returns
    the empty suggestion map. *)
Theorem checkModes_never_accepts_def (tntModule : TntModule)
  (effects : gmap Z Effect) (d : TntOpDef) :
  (forall d', d' ∈ defs tntModule -> is_Some (effects !! id d')) ->
  d ∈ defs tntModule ->
  qualifier d = staticdef \/ qualifier d = def ->
  (exists errs, checkModes tntModule effects = Normal (inl errs))
  \/ (exists suggs,
        checkModes tntModule effects = Normal (inr suggs)
        /\ is_Some (suggs !! id d)).
Proof.
  intros Hall Hd Hq.
  rewrite (checkModes_pure isAction isTemporal isState definitionToString).
  unfold checkModesPure.
  destruct (checkDefinitions_total isAction isTemporal isState
              definitionToString effects (defs tntModule) Hall (∅, ∅))
    as ([errs suggs] & -> & Herr & Hsug).
  simpl in *. case_bool_decide as Hempty; [| left; eauto].
  right. exists suggs. split; [reflexivity |].
  destruct (Hall d Hd) as [effect Heffect].
  destruct (reduce_parameterless isAction isTemporal isState effect)
    as (inferred & Hreduce & Hp).
  assert (inferred <> qualifier d) as Hne.
  { apply parameterless_not_def in Hp as [H1 H2].
    destruct Hq as [-> | ->]; assumption. }
  destruct (moreGeneralMode_cases inferred (qualifier d)) as [Hweak | Hstrong].
  - assert (is_Some (errs !! id d)) as [t Ht].
    { apply Herr. right. exists d. repeat split; auto.
      exists effect, inferred. repeat split; auto. }
    subst errs. now rewrite lookup_empty in Ht.
  - apply Hsug. right. exists d. repeat split; auto.
    exists effect, inferred. repeat split; auto.
Qed.

(** X11: a module in which every definition has an effect and is declared
    temporal is never rejected, whatever the effects are; and a module in
    which every definition is declared staticval gets no suggestion. *)
Theorem checkModes_extreme_qualifiers (tntModule : TntModule)
  (effects : gmap Z Effect) :
  (forall d, d ∈ defs tntModule -> is_Some (effects !! id d)) ->
  ((forall d, d ∈ defs tntModule -> qualifier d = temporal) ->
   exists suggs, checkModes tntModule effects = Normal (inr suggs))
  /\ ((forall d, d ∈ defs tntModule -> qualifier d = staticval) ->
      checkModes tntModule effects = Normal (inr ∅)
      \/ exists errs, checkModes tntModule effects = Normal (inl errs)).
Proof.
  intros Hall.
  rewrite (checkModes_pure isAction isTemporal isState definitionToString).
  unfold checkModesPure.
  destruct (checkDefinitions_total isAction isTemporal isState
              definitionToString effects (defs tntModule) Hall (∅, ∅))
    as ([errs suggs] & -> & Herr & Hsug).
  simpl in *. split; intros Hq.
  - case_bool_decide as Hempty; [eauto |]. exfalso.
    destruct (map_choose errs Hempty) as (i & t & Ht).
    destruct (proj1 (Herr i)) as [[? Hnone] | (d & Hd & _ & Hp)]; [eauto | |].
    + now rewrite lookup_empty in Hnone.
    + destruct Hp as (effect & inferred & _ & _ & Hweak).
      apply tooWeak_position in Hweak. rewrite (Hq d Hd) in Hweak.
      destruct inferred; simpl in Hweak; lia.
  - case_bool_decide as Hempty; [| right; eauto]. left. do 2 f_equal.
    apply map_empty. intros i.
    destruct (suggs !! i) as [m |] eqn:Hm; [| reflexivity]. exfalso.
    destruct (proj1 (Hsug i)) as [[? Hnone] | (d & Hd & _ & Hp)]; [eauto | |].
    + now rewrite lookup_empty in Hnone.
    + destruct Hp as (effect & inferred & _ & _ & Hstrong).
      apply tooStrong_position in Hstrong. rewrite (Hq d Hd) in Hstrong.
      destruct inferred; simpl in Hstrong; lia.
Qed.

End CheckerFacts.

(** * The definitions collector *)

Section CollectorFacts.

Import Collector.

Context (TntType : Type).

Local Abbreviation DefinitionTable := (DefinitionTable TntType).
Local Abbreviation TntDef := (TntDef TntType).
Local Abbreviation TntModule := (TntModule TntType).
Local Abbreviation collectDef := (collectDef TntType).
Local Abbreviation collectDefs := (collectDefs TntType).
Local Abbreviation collectDefinitions := (collectDefinitions TntType).

Lemma TntEx_induction (P : TntEx -> Prop) :
  (forall id params body, P body -> P (ExLambda id params body)) ->
  (forall id opcode args, Forall P args -> P (ExApp id opcode args)) ->
  (forall id name qualifier body rest,
      (forall e, body = Some e -> P e) -> P rest ->
      P (ExLet id (OpDef name qualifier body) rest)) ->
  (forall id, P (ExOther id)) ->
  forall expr, P expr.
Proof.
  intros Hlambda Happ Hlet Hother. fix IH 1.
  intros [id params body | id opcode args | id [name qualifier body] rest | id].
  - apply Hlambda, IH.
  - apply Happ. induction args as [| a args IHargs]; constructor;
      [apply IH | exact IHargs].
  - destruct body as [e |].
    + apply Hlet; [| apply IH]. intros e' Heq. injection Heq as <-. apply IH.
    + apply Hlet; [| apply IH]. intros e' Heq. discriminate Heq.
  - apply Hother.
Qed.

Lemma collectFromExpr_app (id : Z) (opcode : string) (args : list TntEx) :
  collectFromExpr (ExApp id opcode args) = flatMap collectFromExpr args.
Proof.
  simpl. induction args as [| a args IH]; simpl; [reflexivity |].
  now rewrite IH.
Qed.

Lemma binders_app (id : Z) (opcode : string) (args : list TntEx) :
  binders (ExApp id opcode args) = concat (map binders args).
Proof.
  simpl. induction args as [| a args IH]; simpl; [reflexivity |].
  now rewrite IH.
Qed.

Lemma collectDef_appends (d : TntDef) :
  exists names types err,
    forall t : DefinitionTable,
      collectDef t d
      = {| thrown := err;
           table := {| nameDefinitions := nameDefinitions _ t ++ names;
                       typeDefinitions := typeDefinitions _ t ++ types |} |}.
Proof.
  destruct d as [name | name | opdef | name | m | name type |]; simpl.
  - exists [{| kind := "const"; identifier := name; scope := None |}], [], None.
    intros t. unfold pushName. now rewrite app_nil_r.
  - exists [{| kind := "var"; identifier := name; scope := None |}], [], None.
    intros t. unfold pushName. now rewrite app_nil_r.
  - destruct (opExpr opdef) as [e |].
    + destruct (collectFromExpr e) as [ns | err].
      * exists ({| kind := "def"; identifier := opName opdef; scope := None |}
                :: ns), [], None.
        intros t. unfold pushName. simpl.
        now rewrite app_nil_r, <- app_assoc.
      * exists [{| kind := "def"; identifier := opName opdef; scope := None |}],
          [], (Some err).
        intros t. unfold pushName. simpl. now rewrite app_nil_r.
    + exists [{| kind := "def"; identifier := opName opdef; scope := None |}],
        [], None.
      intros t. unfold pushName. simpl. now rewrite app_nil_r.
  - exists [{| kind := "namespace"; identifier := name; scope := None |}],
      [], None.
    intros t. unfold pushName. now rewrite app_nil_r.
  - exists [{| kind := "namespace"; identifier := moduleName _ m;
               scope := None |}], [], None.
    intros t. unfold pushName. now rewrite app_nil_r.
  - exists [], [{| typeIdentifier := name; type := type |}], None.
    intros t. unfold pushType. simpl. now rewrite app_nil_r.
  - exists [], [], None. intros [ns ts]. simpl. now rewrite !app_nil_r.
Qed.

Lemma collectDefs_appends (ds : list TntDef) :
  exists names types err,
    forall t : DefinitionTable,
      collectDefs t ds
      = {| thrown := err;
           table := {| nameDefinitions := nameDefinitions _ t ++ names;
                       typeDefinitions := typeDefinitions _ t ++ types |} |}.
Proof.
  induction ds as [| d ds (names2 & types2 & err2 & IH)]; simpl.
  - exists [], [], None. intros [ns ts]. simpl. now rewrite !app_nil_r.
  - destruct (collectDef_appends d) as (names1 & types1 & err1 & Hd).
    destruct err1 as [e |].
    + exists names1, types1, (Some e). intros t. now rewrite Hd.
    + exists (names1 ++ names2), (types1 ++ types2), err2. intros t.
      rewrite Hd. simpl. rewrite IH. simpl. now rewrite !app_assoc.
Qed.

(** X12: [collectDefinitions] only appends.  What it appends to the two
    arrays, and whether it throws, depend on the module alone; the entries
    the arrays held before the call are all kept, in place, in front. *)
Theorem collectDefinitions_appends (tntModule : TntModule) :
  exists names types err,
    forall defaults : DefinitionTable,
      collectDefinitions defaults tntModule
      = {| thrown := err;
           table := {| nameDefinitions := nameDefinitions _ defaults ++ names;
                       typeDefinitions := typeDefinitions _ defaults ++ types
                    |} |}.
Proof. apply collectDefs_appends. Qed.

(** X13: the table [collectDefinitions] returns is made of the module-level
    arrays themselves, so a call leaves its additions in
    [defaultDefinitions].  Called a second time on the same module, it
    returns the built-in names followed by the module's names twice. *)
Theorem collectDefinitions_twice (tntModule : TntModule) :
  let first := collectDefinitions (initialTable TntType) tntModule in
  let second := collectDefinitions (table _ first) tntModule in
  let added :=
    drop (length defaultDefinitions) (nameDefinitions _ (table _ first)) in
  nameDefinitions _ (table _ first) = defaultDefinitions ++ added
  /\ nameDefinitions _ (table _ second) = defaultDefinitions ++ added ++ added
  /\ thrown _ second = thrown _ first.
Proof.
  destruct (collectDefs_appends (moduleDefs _ tntModule))
    as (names & types & err & H).
  unfold collectDefinitions. cbv zeta. rewrite !H.
  cbn [table nameDefinitions typeDefinitions thrown initialTable].
  rewrite drop_app_length, app_assoc. auto.
Qed.

(** X14: every definition [collectFromExpr] collects carries a scope, and
    the scope is the identifier of a lambda or a let of the expression. *)
Theorem collectFromExpr_scopes (expr : TntEx) (ns : list NameDefinition) :
  collectFromExpr expr = Normal ns ->
  Forall (fun n => exists i, scope n = Some i /\ i ∈ binders expr) ns.
Proof.
  revert ns.
  induction expr as [id params body IH | id opcode args IH
                    | id name qualifier body rest IHbody IHrest | id]
    using TntEx_induction; intros ns Hrun.
  - simpl in Hrun.
    destruct (collectFromExpr body) as [rest |]; [| discriminate Hrun].
    injection Hrun as <-. apply Forall_app. split.
    + apply Forall_forall. intros n Hn.
      apply list_elem_of_fmap in Hn as (p & -> & _).
      exists id. split; [reflexivity | left].
    + eapply Forall_impl; [apply IH; reflexivity |].
      intros n (i & Hs & Hi). exists i. split; [exact Hs | now right].
  - rewrite collectFromExpr_app in Hrun. rewrite binders_app.
    revert ns Hrun.
    induction IH as [| a args Ha _ IHargs]; intros ns Hrun; simpl in Hrun.
    + injection Hrun as <-. constructor.
    + destruct (collectFromExpr a) as [here |]; [| discriminate Hrun].
      destruct (flatMap collectFromExpr args) as [rest |];
        [| discriminate Hrun].
      injection Hrun as <-. simpl. apply Forall_app. split.
      * eapply Forall_impl; [apply Ha; reflexivity |].
        intros n (i & Hs & Hi). exists i. split; [exact Hs |].
        apply elem_of_app. now left.
      * eapply Forall_impl; [apply IHargs; reflexivity |].
        intros n (i & Hs & Hi). exists i. split; [exact Hs |].
        apply elem_of_app. now right.
  - simpl in Hrun. destruct body as [e |]; [| discriminate Hrun].
    destruct (collectFromExpr e) as [fromBody |] eqn:Hbody;
      [| discriminate Hrun].
    destruct (collectFromExpr rest) as [fromRest |]; [| discriminate Hrun].
    injection Hrun as <-. simpl. constructor.
    + exists id. split; [reflexivity | left].
    + apply Forall_app. split.
      * eapply Forall_impl; [exact (IHbody e eq_refl fromBody Hbody) |].
        intros n (i & Hs & Hi). exists i. split; [exact Hs |].
        right. apply elem_of_app. now left.
      * eapply Forall_impl; [apply IHrest; reflexivity |].
        intros n (i & Hs & Hi). exists i. split; [exact Hs |].
        right. apply elem_of_app. now right.
  - simpl in Hrun. injection Hrun as <-. constructor.
Qed.

End CollectorFacts.

(** * Finding the Apalache distribution *)

Section DistributionFacts.

Import Verifier Distribution.

Lemma findApalacheDistribution_None (host : Host) :
  APALACHE_DIST host = None ->
  findApalacheDistribution host = Throw joinOfUndefined.
Proof. intros H. unfold findApalacheDistribution. now rewrite H. Qed.

Lemma truthy_spec (s : string) : truthy s = true <-> s <> "".
Proof.
  unfold truthy. rewrite negb_true_iff. apply String.eqb_neq.
Qed.

(** The directory the distribution is looked for in. *)
Lemma configuredDist_cases (host : Host) (dist : string) :
  APALACHE_DIST host = Some dist ->
  exists root,
    (root = dist /\ dist <> "" /\ isAbsolute host dist = true
     \/ root = join host [cwd host; dist]
        /\ (dist = "" \/ isAbsolute host dist = false))
    /\ findApalacheDistribution host
       = (let distResult : VerifyResult string :=
            if truthy root && negb (existsSync host root) then
              err (JString ("Specified APALACHE_DIST " +:+ root
                            +:+ " does not exist"))
            else if truthy root then inr root
            else err (JString unableToFind) in
          match distResult with
          | inl e => Normal (inl e)
          | inr d =>
              if existsSync host (join host [d; "lib"; "apalache.jar"])
                 && existsSync host (join host [d; "bin"; "apalache-mc"])
              then Normal (inr {| jar := join host [d; "lib"; "apalache.jar"];
                                  exe := join host [d; "bin"; "apalache-mc"] |})
              else Normal (err
                     (JString
                        ("Apalache distribution is corrupted. Cannot find "
                         +:+ join host [d; "lib"; "apalache.jar"] +:+ " or "
                         +:+ join host [d; "bin"; "apalache-mc"] +:+ ".")))
          end).
Proof.
  intros H. unfold findApalacheDistribution. rewrite H.
  destruct (truthy dist && isAbsolute host dist) eqn:Habs.
  - exists dist. split; [| reflexivity]. left.
    apply andb_true_iff in Habs as [Hne Habs].
    apply truthy_spec in Hne. auto.
  - exists (join host [cwd host; dist]). split; [| reflexivity].
    right. split; [reflexivity |].
    apply andb_false_iff in Habs as [Hempty | Hrel]; [left | now right].
    unfold truthy in Hempty. apply negb_false_iff in Hempty.
    now apply String.eqb_eq in Hempty.
Qed.

(** X15: [findApalacheDistribution] throws exactly when the environment
    variable APALACHE_DIST is unset: it then throws the TypeError of
    [path.join] called on undefined, not the error that asks for the
    variable to be set; with the variable set, even to the empty string, it
    returns. *)
Theorem findApalacheDistribution_unset (host : Host) :
  (APALACHE_DIST host = None ->
   findApalacheDistribution host = Throw joinOfUndefined)
  /\ (APALACHE_DIST host <> None -> returns (findApalacheDistribution host)).
Proof.
  split; [apply findApalacheDistribution_None |].
  destruct (APALACHE_DIST host) as [dist |] eqn:Henv; [| contradiction].
  intros _.
  destruct (configuredDist_cases host dist Henv) as (root & _ & ->).
  cbv zeta.
  destruct (truthy root && negb (existsSync host root));
    [eexists; reflexivity |].
  destruct (truthy root); [| eexists; reflexivity].
  destruct (existsSync host (join host [root; "lib"; "apalache.jar"])
            && existsSync host (join host [root; "bin"; "apalache-mc"]));
    eexists; reflexivity.
Qed.

(** X16: when [findApalacheDistribution] returns a distribution, the
    directory it was looked for in exists; it is the value of APALACHE_DIST
    when that is a non-empty absolute path, and the working directory
    joined with it only when it is empty or not absolute; and the jar and
    the executable are the paths lib/apalache.jar and bin/apalache-mc under
    it, both of which exist. *)
Theorem findApalacheDistribution_found (host : Host) (found : ApalacheDist) :
  findApalacheDistribution host = Normal (inr found) ->
  exists dist root,
    APALACHE_DIST host = Some dist
    /\ (root = dist /\ dist <> "" /\ isAbsolute host dist = true
        \/ root = join host [cwd host; dist]
           /\ (dist = "" \/ isAbsolute host dist = false))
    /\ root <> ""
    /\ existsSync host root = true
    /\ jar found = join host [root; "lib"; "apalache.jar"]
    /\ exe found = join host [root; "bin"; "apalache-mc"]
    /\ existsSync host (jar found) = true
    /\ existsSync host (exe found) = true.
Proof.
  intros Hfound.
  destruct (APALACHE_DIST host) as [dist |] eqn:Henv;
    [| rewrite (findApalacheDistribution_None host Henv) in Hfound;
       discriminate Hfound].
  destruct (configuredDist_cases host dist Henv) as (root & Hroot & Heq).
  rewrite Heq in Hfound. clear Heq. cbv zeta in Hfound.
  exists dist, root. split; [reflexivity |]. split; [exact Hroot |].
  destruct (truthy root) eqn:Htruthy; simpl in Hfound.
  - destruct (existsSync host root) eqn:Hexists; simpl in Hfound;
      [| discriminate Hfound].
    destruct (existsSync host (join host [root; "lib"; "apalache.jar"]))
      eqn:Hjar; simpl in Hfound; [| discriminate Hfound].
    destruct (existsSync host (join host [root; "bin"; "apalache-mc"]))
      eqn:Hexe; simpl in Hfound; [| discriminate Hfound].
    injection Hfound as <-. simpl.
    apply truthy_spec in Htruthy. repeat split; auto.
  - discriminate Hfound.
Qed.

(** X17: on a host whose [path.join] never gives the empty string, as that
    of Node does not, [findApalacheDistribution] never returns the error
    that tells the user to set APALACHE_DIST: whenever it returns an error,
    the error says that the directory does not exist or that the
    distribution is corrupted. *)
Theorem findApalacheDistribution_errors (host : Host) (e : VerifyError) :
  (forall segments, join host segments <> "") ->
  findApalacheDistribution host = Normal (inl e) ->
  explanation e <> JString unableToFind
  /\ errors e = [] /\ traces e = JUndefined
  /\ exists root,
       (explanation e
        = JString ("Specified APALACHE_DIST " +:+ root +:+ " does not exist")
        /\ existsSync host root = false)
       \/ (explanation e
           = JString ("Apalache distribution is corrupted. Cannot find "
                      +:+ join host [root; "lib"; "apalache.jar"] +:+ " or "
                      +:+ join host [root; "bin"; "apalache-mc"] +:+ ".")
           /\ existsSync host root = true
           /\ (existsSync host (join host [root; "lib"; "apalache.jar"]) = false
               \/ existsSync host (join host [root; "bin"; "apalache-mc"])
                  = false)).
Proof.
  intros Hjoin Herr.
  destruct (APALACHE_DIST host) as [dist |] eqn:Henv;
    [| rewrite (findApalacheDistribution_None host Henv) in Herr;
       discriminate Herr].
  destruct (configuredDist_cases host dist Henv) as (root & Hroot & Heq).
  rewrite Heq in Herr. clear Heq. cbv zeta in Herr.
  assert (truthy root = true) as Htruthy.
  { apply truthy_spec.
    destruct Hroot as [(-> & Hne & _) | [-> _]]; [exact Hne | apply Hjoin]. }
  rewrite Htruthy in Herr. simpl in Herr.
  destruct (existsSync host root) eqn:Hexists; simpl in Herr.
  - destruct (existsSync host (join host [root; "lib"; "apalache.jar"]))
      eqn:Hjar; simpl in Herr.
    + destruct (existsSync host (join host [root; "bin"; "apalache-mc"]))
        eqn:Hexe; simpl in Herr; [discriminate Herr |].
      injection Herr as <-. cbn [explanation errors traces].
      split; [unfold unableToFind; discriminate |].
      split; [reflexivity |]. split; [reflexivity |].
      exists root. right. auto.
    + injection Herr as <-. cbn [explanation errors traces].
      split; [unfold unableToFind; discriminate |].
      split; [reflexivity |]. split; [reflexivity |].
      exists root. right. auto.
  - injection Herr as <-. cbn [explanation errors traces].
    split; [unfold unableToFind; discriminate |].
    split; [reflexivity |]. split; [reflexivity |].
    exists root. left. auto.
Qed.

End DistributionFacts.

(** * Further properties of the check command *)

Section CheckFacts.

Import Verifier.

Context (JSON_parse : string -> Completion any).
Context (JSON_stringify : any -> string).

Local Abbreviation checkResponse := (checkResponse JSON_parse).
Local Abbreviation check := (check JSON_parse JSON_stringify).

Lemma getProp_returns (o : any) (p : string) (v : any) :
  getProp o p = Normal v -> o <> JUndefined /\ o <> JNull.
Proof. destruct o; simpl; intros H; try discriminate H; split; discriminate. Qed.

Lemma isString_true (v : any) (s : string) :
  isString v s = true <-> v = JString s.
Proof.
  destruct v as [| | b | n | s' | l | fields]; simpl;
    try (split; [discriminate | discriminate]).
  rewrite String.eqb_eq. split; [now intros -> | now intros [= ->]].
Qed.

(** X18: [handleVerificationFailure] returns exactly when the failure has
    pass_name BoundedChecker, its error_data is neither undefined nor null,
    and the checking_result of the error_data is Error or Deadlock; it
    then reports the matching explanation, the counterexamples of the
    error_data as traces, and no errors.  On every other failure it
    throws. *)
Theorem handleVerificationFailure_returns_iff (failure : any)
  (e : VerifyError) :
  handleVerificationFailure failure = Normal e
  <-> exists error_data tag counterexamples,
        getProp failure "pass_name" = Normal (JString "BoundedChecker")
        /\ getProp failure "error_data" = Normal error_data
        /\ getProp error_data "checking_result" = Normal (JString tag)
        /\ getProp error_data "counterexamples" = Normal counterexamples
        /\ (tag = "Error"
            /\ e = {| explanation := JString "found a counterexample";
                      errors := []; traces := counterexamples |}
            \/ tag = "Deadlock"
               /\ e = {| explanation := JString "reached a deadlock";
                         errors := []; traces := counterexamples |}).
Proof.
  unfold handleVerificationFailure. split.
  - intros Hrun.
    destruct (getProp failure "pass_name") as [pass_name |] eqn:Hpass;
      [| discriminate Hrun].
    simpl in Hrun.
    destruct (isString pass_name "BoundedChecker") eqn:Hbounded;
      [| discriminate Hrun].
    apply isString_true in Hbounded as ->.
    destruct (getProp failure "error_data") as [error_data |] eqn:Hdata;
      [| discriminate Hrun].
    simpl in Hrun.
    destruct (getProp error_data "checking_result") as [result |] eqn:Hresult;
      [| discriminate Hrun].
    simpl in Hrun.
    destruct (isString result "Error") eqn:Herror.
    + apply isString_true in Herror as ->.
      destruct (getProp error_data "counterexamples") as [cs |] eqn:Hcs;
        [| discriminate Hrun].
      injection Hrun as <-. exists error_data, "Error", cs. auto 10.
    + destruct (isString result "Deadlock") eqn:Hdeadlock;
        [| discriminate Hrun].
      apply isString_true in Hdeadlock as ->.
      destruct (getProp error_data "counterexamples") as [cs |] eqn:Hcs;
        [| discriminate Hrun].
      injection Hrun as <-. exists error_data, "Deadlock", cs. auto 10.
  - intros (error_data & tag & cs & -> & -> & Hresult & Hcs & Htag). simpl.
    rewrite Hresult. simpl.
    destruct Htag as [[-> ->] | [-> ->]]; simpl; now rewrite Hcs.
Qed.

Lemma handleVerificationFailure_value (failure : any) (e : VerifyError) :
  handleVerificationFailure failure = Normal e ->
  errors e = []
  /\ (explanation e = JString "found a counterexample"
      \/ explanation e = JString "reached a deadlock").
Proof.
  unfold handleVerificationFailure. intros Hrun.
  destruct (getProp failure "pass_name") as [pass_name |];
    [| discriminate Hrun].
  simpl in Hrun.
  destruct (isString pass_name "BoundedChecker"); [| discriminate Hrun].
  destruct (getProp failure "error_data") as [error_data |];
    [| discriminate Hrun].
  simpl in Hrun.
  destruct (getProp error_data "checking_result") as [result |];
    [| discriminate Hrun].
  simpl in Hrun.
  destruct (isString result "Error").
  - destruct (getProp error_data "counterexamples"); [| discriminate Hrun].
    injection Hrun as <-. simpl. auto.
  - destruct (isString result "Deadlock"); [| discriminate Hrun].
    destruct (getProp error_data "counterexamples"); [| discriminate Hrun].
    injection Hrun as <-. simpl. auto.
Qed.

(** X19: [check] returns the success value only for a success response; a
    failure response never passes for a verified specification. *)
Theorem check_success_only (cmdExecutor : AsyncCmdExecutor) (c : any)
  (response : RunResponse) (value : unit) :
  run cmdExecutor {| cmd := "CHECK"; config := JSON_stringify c |}
  = Normal response ->
  check cmdExecutor c = Normal (inr value) ->
  response = success.
Proof.
  intros Hrun. unfold check. rewrite Hrun. simpl.
  destruct response as [| errorType data]; [reflexivity |]. simpl.
  destruct (String.eqb errorType "UNEXPECTED").
  - destruct (JSON_parse data) as [errData |]; simpl; [| discriminate].
    destruct (getProp errData "msg"); simpl; discriminate.
  - destruct (String.eqb errorType "PASS_FAILURE"); [| discriminate].
    destruct (JSON_parse data) as [parsed |]; simpl; [| discriminate].
    destruct (handleVerificationFailure parsed); simpl; discriminate.
Qed.

(** X20: a failure value returned by [check] never lists errors, and it
    carries traces only when the response was a PASS_FAILURE. *)
Theorem check_failure_value (cmdExecutor : AsyncCmdExecutor) (c : any)
  (errorType data : string) (e : VerifyError) :
  run cmdExecutor {| cmd := "CHECK"; config := JSON_stringify c |}
  = Normal (failure errorType data) ->
  check cmdExecutor c = Normal (inl e) ->
  errors e = []
  /\ (errorType <> "PASS_FAILURE" -> traces e = JUndefined)
  /\ (errorType = "PASS_FAILURE" ->
      explanation e = JString "found a counterexample"
      \/ explanation e = JString "reached a deadlock").
Proof.
  intros Hrun. unfold check. rewrite Hrun. simpl.
  destruct (String.eqb_spec errorType "UNEXPECTED") as [-> | Hne1].
  - destruct (JSON_parse data) as [errData |]; simpl; [| discriminate].
    destruct (getProp errData "msg"); simpl; [| discriminate].
    intros [= <-]. simpl. repeat split; auto. discriminate.
  - destruct (String.eqb_spec errorType "PASS_FAILURE") as [-> | Hne2].
    + destruct (JSON_parse data) as [parsed |]; simpl; [| discriminate].
      destruct (handleVerificationFailure parsed) as [e' |] eqn:Hhandle;
        simpl; [| discriminate].
      intros [= <-].
      apply handleVerificationFailure_value in Hhandle as [Herrors Hexpl].
      split; [exact Herrors |]. split; [contradiction | auto].
    + intros [= <-]. simpl. repeat split; auto. contradiction.
Qed.

(** X21: when the data of an UNEXPECTED or PASS_FAILURE response is not
    JSON, [check] throws the exception of [JSON.parse]; the data of a
    failure of any other type is never parsed. *)
Theorem check_parse_error (cmdExecutor : AsyncCmdExecutor) (c : any)
  (errorType data : string) (error : JsError) :
  run cmdExecutor {| cmd := "CHECK"; config := JSON_stringify c |}
  = Normal (failure errorType data) ->
  JSON_parse data = Throw error ->
  (errorType = "UNEXPECTED" \/ errorType = "PASS_FAILURE" ->
   check cmdExecutor c = Throw error)
  /\ (errorType <> "UNEXPECTED" -> errorType <> "PASS_FAILURE" ->
      returns (check cmdExecutor c)).
Proof.
  intros Hrun Hparse. unfold check. rewrite Hrun. simpl. split.
  - intros [-> | ->]; simpl; now rewrite Hparse.
  - intros Hne1 Hne2. apply String.eqb_neq in Hne1, Hne2.
    rewrite Hne1, Hne2. eexists. reflexivity.
Qed.

(** X22: the message of an UNEXPECTED failure is read without a check.
    Data that parses to null makes [check] throw a TypeError; data that
    parses to anything else without a msg, an object without that field or
    a number, a string, a boolean or an array, gives a failure value whose
    explanation is undefined. *)
Theorem check_unexpected_without_msg (cmdExecutor : AsyncCmdExecutor)
  (c : any) (data : string) (errData : any) :
  run cmdExecutor {| cmd := "CHECK"; config := JSON_stringify c |}
  = Normal (failure "UNEXPECTED" data) ->
  JSON_parse data = Normal errData ->
  (errData = JNull ->
   check cmdExecutor c
   = Throw (TypeError "Cannot read properties of null (reading 'msg')"))
  /\ (errData <> JNull -> errData <> JUndefined ->
      (forall fields, errData = JObject fields ->
                      lookupField "msg" fields = None) ->
      check cmdExecutor c
      = Normal (inl {| explanation := JUndefined; errors := [];
                       traces := JUndefined |})).
Proof.
  intros Hrun Hparse. unfold check. rewrite Hrun. simpl. rewrite Hparse.
  simpl. split.
  - intros ->. reflexivity.
  - intros Hnull Hundef Hfields.
    destruct errData as [| | b | n | s | l | fields]; try reflexivity;
      try contradiction.
    simpl. now rewrite (Hfields fields eq_refl).
Qed.

End CheckFacts.

(** * The further theorems at concrete inputs *)

Lemma reduce_permutation_witness :
  let effect1 :=
    EArrow [EConcrete Examples.pure; EConcrete Examples.readsX]
           (EConcrete Examples.pure) in
  let effect2 :=
    EArrow [EConcrete Examples.readsX; EConcrete Examples.pure]
           (EConcrete Examples.pure) in
  leaves effect1 ≡ₚ leaves effect2
  /\ reduce updatesState isTemporalFormula readsState effect1
     = reduce updatesState isTemporalFormula readsState effect2.
Proof.
  intros effect1 effect2.
  assert (leaves effect1 ≡ₚ leaves effect2) as Hperm by (simpl; constructor).
  split; [exact Hperm |].
  exact (reduce_permutation updatesState isTemporalFormula readsState
           effect1 effect2 Hperm).
Defined.

Lemma walkEffect_joins_witness :
  exists inferred,
    reduce updatesState isTemporalFormula readsState
      (EConcrete Examples.readsX) = Normal inferred
    /\ walkEffect
         (V := ModeFinder_visitor updatesState isTemporalFormula readsState)
         {| currentMode := action |} (EConcrete Examples.readsX)
       = Normal {| currentMode := moreGeneralMode action inferred |}.
Proof.
  destruct (walkEffect_joins updatesState isTemporalFormula readsState
              {| currentMode := action |} (EConcrete Examples.readsX))
    as (inferred & Hreduce & Hwalk & _); [discriminate | discriminate |].
  exists inferred. split; [exact Hreduce | exact Hwalk].
Defined.

Lemma exitArrow_fired_witness :
  Forall addable [EConcrete Examples.readsX]
  /\ exitArrow {| currentMode := def |} [EConcrete Examples.readsX]
       (EConcrete Examples.readsX)
     = Normal {| currentMode := staticdef |}.
Proof.
  assert (Forall addable [EConcrete Examples.readsX]) as Hall
    by (constructor; [left; reflexivity | constructor]).
  split; [exact Hall |].
  destruct (exitArrow_fired {| currentMode := def |}
              [EConcrete Examples.readsX] (EConcrete Examples.readsX))
    as (mode & Hrun & _); [right; reflexivity | exact Hall |].
  rewrite Hrun. vm_compute in Hrun. exact (eq_sym Hrun).
Defined.


Lemma checkModes_never_accepts_def_witness :
  let tntModule := {| defs := [MoreExamples.h] |} in
  (forall d, d ∈ defs tntModule -> is_Some (MoreExamples.effectsOfH !! id d))
  /\ MoreExamples.h ∈ defs tntModule
  /\ checkModes updatesState isTemporalFormula readsState Examples.printName
       tntModule MoreExamples.effectsOfH
     <> Normal (inr ∅).
Proof.
  intros tntModule.
  assert (forall d, d ∈ defs tntModule ->
                    is_Some (MoreExamples.effectsOfH !! id d)) as Hall.
  { intros d Hd. apply list_elem_of_singleton in Hd as ->.
    eexists; reflexivity. }
  assert (MoreExamples.h ∈ defs tntModule) as Hin by left.
  split; [exact Hall |]. split; [exact Hin |].
  destruct (checkModes_never_accepts_def updatesState isTemporalFormula
              readsState Examples.printName tntModule MoreExamples.effectsOfH
              MoreExamples.h Hall Hin (or_intror eq_refl))
    as [(errs & ->) | (suggs & -> & [m Hm])].
  - discriminate.
  - intros [= ->]. now rewrite lookup_empty in Hm.
Defined.

Lemma checkModes_error_entries_witness :
  let t := {| location := "Checking modes for f";
              message := "Expected val mode, found: staticval";
              children := [] |} in
  checkModes updatesState isTemporalFormula readsState Examples.printName
    {| defs := [Examples.f; Examples.g] |} Examples.effectsOfFG
  = Normal (inl {[ 1 := t ]})
  /\ ({[ 1 := t ]} : gmap Z ErrorTree) !! 1 = Some t
  /\ exists d inferred,
       d ∈ [Examples.f; Examples.g] /\ id d = 1
       /\ position (qualifier d) < position inferred.
Proof.
  intros t.
  assert (checkModes updatesState isTemporalFormula readsState
            Examples.printName {| defs := [Examples.f; Examples.g] |}
            Examples.effectsOfFG
          = Normal (inl {[ 1 := t ]})) as Hrun by reflexivity.
  assert (({[ 1 := t ]} : gmap Z ErrorTree) !! 1 = Some t) as Ht
    by reflexivity.
  split; [exact Hrun |]. split; [exact Ht |].
  destruct (checkModes_error_entries updatesState isTemporalFormula readsState
              Examples.printName _ _ _ 1 t Hrun Ht)
    as (d & effect & inferred & Hd & Hid & _ & _ & Hlt & _).
  exists d, inferred. split; [exact Hd |]. split; [exact Hid | exact Hlt].
Defined.

Lemma checkModes_suggestion_entries_witness :
  checkModes updatesState isTemporalFormula readsState Examples.printName
    {| defs := [Examples.g] |} Examples.effectsOfFG
  = Normal (inr {[ 2 := val ]})
  /\ ({[ 2 := val ]} : gmap Z OpQualifier) !! 2 = Some val
  /\ exists d, d ∈ [Examples.g] /\ position val < position (qualifier d).
Proof.
  assert (checkModes updatesState isTemporalFormula readsState
            Examples.printName {| defs := [Examples.g] |} Examples.effectsOfFG
          = Normal (inr {[ 2 := val ]})) as Hrun by reflexivity.
  assert (({[ 2 := val ]} : gmap Z OpQualifier) !! 2 = Some val) as Hm
    by reflexivity.
  split; [exact Hrun |]. split; [exact Hm |].
  destruct (checkModes_suggestion_entries updatesState isTemporalFormula
              readsState Examples.printName _ _ _ 2 val Hrun Hm)
    as (_ & d & effect & Hd & _ & _ & _ & Hlt).
  exists d. split; [exact Hd | exact Hlt].
Defined.

Lemma checkModes_extreme_qualifiers_witness :
  let tntModule := {| defs := [MoreExamples.always_x] |} in
  (forall d, d ∈ defs tntModule ->
             is_Some (MoreExamples.effectsOfAlways !! id d))
  /\ (forall d, d ∈ defs tntModule -> qualifier d = temporal)
  /\ exists suggs,
       checkModes updatesState isTemporalFormula readsState Examples.printName
         tntModule MoreExamples.effectsOfAlways = Normal (inr suggs).
Proof.
  intros tntModule.
  assert (forall d, d ∈ defs tntModule ->
                    is_Some (MoreExamples.effectsOfAlways !! id d)) as Hall.
  { intros d Hd. apply list_elem_of_singleton in Hd as ->.
    eexists; reflexivity. }
  assert (forall d, d ∈ defs tntModule -> qualifier d = temporal) as Hq.
  { intros d Hd. now apply list_elem_of_singleton in Hd as ->. }
  split; [exact Hall |]. split; [exact Hq |].
  exact (proj1 (checkModes_extreme_qualifiers updatesState isTemporalFormula
                  readsState Examples.printName tntModule
                  MoreExamples.effectsOfAlways Hall) Hq).
Defined.

Lemma checkModes_permutation_witness :
  [Examples.f; MoreExamples.f2] ≡ₚ [MoreExamples.f2; Examples.f]
  /\ NoDup (map id [Examples.f; MoreExamples.f2])
  /\ (forall d, d ∈ [Examples.f; MoreExamples.f2] ->
                is_Some (MoreExamples.effectsOfFF2 !! id d))
  /\ exists errs errs',
       checkModes updatesState isTemporalFormula readsState Examples.printName
         {| defs := [Examples.f; MoreExamples.f2] |} MoreExamples.effectsOfFF2
       = Normal (inl errs)
       /\ checkModes updatesState isTemporalFormula readsState
            Examples.printName
            {| defs := [MoreExamples.f2; Examples.f] |}
            MoreExamples.effectsOfFF2
          = Normal (inl errs')
       /\ is_Some (errs !! 1) /\ is_Some (errs !! 5)
       /\ forall i, errs !! i = errs' !! i.
Proof.
  assert ([Examples.f; MoreExamples.f2] ≡ₚ [MoreExamples.f2; Examples.f])
    as Hperm by constructor.
  assert (NoDup (map id [Examples.f; MoreExamples.f2])) as Hnodup.
  { simpl. apply NoDup_cons. split.
    - intros H. apply list_elem_of_singleton in H. discriminate H.
    - apply NoDup_singleton. }
  assert (forall d, d ∈ [Examples.f; MoreExamples.f2] ->
                    is_Some (MoreExamples.effectsOfFF2 !! id d)) as Hall.
  { intros d Hd.
    apply elem_of_cons in Hd as [-> | Hd];
      [| apply list_elem_of_singleton in Hd as ->];
      eexists; reflexivity. }
  split; [exact Hperm |]. split; [exact Hnodup |]. split; [exact Hall |].
  destruct (checkModes_permutation updatesState isTemporalFormula readsState
              Examples.printName MoreExamples.effectsOfFF2 _ _ Hperm Hnodup
              Hall)
    as [(errs & errs' & Hrun & Hrun' & Hsame)
       | (suggs & suggs' & Hrun & _)].
  - exists errs, errs'. split; [exact Hrun |]. split; [exact Hrun' |].
    vm_compute in Hrun. injection Hrun as <-.
    split; [eexists; reflexivity |]. split; [eexists; reflexivity |].
    exact Hsame.
  - vm_compute in Hrun. discriminate Hrun.
Defined.

Lemma collectFromExpr_scopes_witness :
  Collector.collectFromExpr MoreExamples.lambda
  = Normal [{| Collector.kind := "def"; Collector.identifier := "a";
               Collector.scope := Some 7 |}]
  /\ Forall (fun n => exists i, Collector.scope n = Some i
                                /\ i ∈ Collector.binders MoreExamples.lambda)
            [{| Collector.kind := "def"; Collector.identifier := "a";
                Collector.scope := Some 7 |}].
Proof.
  assert (Collector.collectFromExpr MoreExamples.lambda
          = Normal [{| Collector.kind := "def"; Collector.identifier := "a";
                       Collector.scope := Some 7 |}]) as Hrun by reflexivity.
  split; [exact Hrun |].
  exact (collectFromExpr_scopes _ _ Hrun).
Defined.

Lemma findApalacheDistribution_unset_witness :
  Distribution.APALACHE_DIST (Distribution.exampleHost None MoreExamples.installed)
  = None
  /\ Distribution.findApalacheDistribution
       (Distribution.exampleHost None MoreExamples.installed)
     = Throw Distribution.joinOfUndefined.
Proof.
  assert (Distribution.APALACHE_DIST
            (Distribution.exampleHost None MoreExamples.installed) = None)
    as Henv by reflexivity.
  split; [exact Henv |].
  exact (proj1 (findApalacheDistribution_unset _) Henv).
Defined.

Lemma findApalacheDistribution_found_witness :
  let host :=
    Distribution.exampleHost (Some "/opt/apalache") MoreExamples.installed in
  let found :=
    {| Distribution.jar := "/opt/apalache/lib/apalache.jar";
       Distribution.exe := "/opt/apalache/bin/apalache-mc" |} in
  Distribution.findApalacheDistribution host = Normal (inr found)
  /\ Distribution.existsSync host (Distribution.jar found) = true
  /\ Distribution.existsSync host (Distribution.exe found) = true.
Proof.
  intros host found.
  assert (Distribution.findApalacheDistribution host = Normal (inr found))
    as Hfound by (vm_compute; reflexivity).
  split; [exact Hfound |].
  destruct (findApalacheDistribution_found host found Hfound)
    as (dist & root & _ & _ & _ & _ & _ & _ & Hjar & Hexe).
  split; [exact Hjar | exact Hexe].
Defined.

Lemma exampleJoin_not_empty (segments : list string) :
  Distribution.exampleJoin segments <> "".
Proof.
  unfold Distribution.exampleJoin.
  destruct (String.eqb_spec
              (Distribution.joinWithSlash (filter (fun s => s <> "") segments))
              "") as [Heq | Hne]; [discriminate | exact Hne].
Defined.

Lemma findApalacheDistribution_errors_witness :
  let host := Distribution.exampleHost (Some "apalache") [] in
  let e :=
    {| Verifier.explanation :=
         Verifier.JString
           "Specified APALACHE_DIST /home/user/apalache does not exist";
       Verifier.errors := []; Verifier.traces := Verifier.JUndefined |} in
  (forall segments, Distribution.join host segments <> "")
  /\ Distribution.findApalacheDistribution host = Normal (inl e)
  /\ Verifier.explanation e <> Verifier.JString Distribution.unableToFind.
Proof.
  intros host e.
  assert (forall segments, Distribution.join host segments <> "") as Hjoin
    by exact exampleJoin_not_empty.
  assert (Distribution.findApalacheDistribution host = Normal (inl e))
    as Herr by (vm_compute; reflexivity).
  split; [exact Hjoin |]. split; [exact Herr |].
  exact (proj1 (findApalacheDistribution_errors host e Hjoin Herr)).
Defined.

Lemma check_success_only_witness :
  Verifier.run (VerifierExamples.answering Verifier.success)
    {| Verifier.cmd := "CHECK";
       Verifier.config := Verifier.stringifyJSON VerifierExamples.emptyConfig |}
  = Normal Verifier.success
  /\ Verifier.check Verifier.parseJSON Verifier.stringifyJSON
       (VerifierExamples.answering Verifier.success)
       VerifierExamples.emptyConfig
     = Normal (inr tt)
  /\ Verifier.success = Verifier.success.
Proof.
  assert (Verifier.run (VerifierExamples.answering Verifier.success)
            {| Verifier.cmd := "CHECK";
               Verifier.config :=
                 Verifier.stringifyJSON VerifierExamples.emptyConfig |}
          = Normal Verifier.success) as Hrun by reflexivity.
  assert (Verifier.check Verifier.parseJSON Verifier.stringifyJSON
            (VerifierExamples.answering Verifier.success)
            VerifierExamples.emptyConfig
          = Normal (inr tt)) as Hcheck by reflexivity.
  split; [exact Hrun |]. split; [exact Hcheck |].
  exact (check_success_only Verifier.parseJSON Verifier.stringifyJSON
           _ _ _ tt Hrun Hcheck).
Defined.

Lemma check_failure_value_witness :
  let response :=
    Verifier.failure "PASS_FAILURE" VerifierExamples.counterexampleData in
  let e :=
    {| Verifier.explanation := Verifier.JString "found a counterexample";
       Verifier.errors := [];
       Verifier.traces := Verifier.JArray [Verifier.JObject []] |} in
  Verifier.run (VerifierExamples.answering response)
    {| Verifier.cmd := "CHECK";
       Verifier.config := Verifier.stringifyJSON VerifierExamples.emptyConfig |}
  = Normal response
  /\ Verifier.check Verifier.parseJSON Verifier.stringifyJSON
       (VerifierExamples.answering response) VerifierExamples.emptyConfig
     = Normal (inl e)
  /\ Verifier.errors e = [].
Proof.
  intros response e.
  assert (Verifier.run (VerifierExamples.answering response)
            {| Verifier.cmd := "CHECK";
               Verifier.config :=
                 Verifier.stringifyJSON VerifierExamples.emptyConfig |}
          = Normal response) as Hrun by reflexivity.
  assert (Verifier.check Verifier.parseJSON Verifier.stringifyJSON
            (VerifierExamples.answering response) VerifierExamples.emptyConfig
          = Normal (inl e)) as Hcheck by (vm_compute; reflexivity).
  split; [exact Hrun |]. split; [exact Hcheck |].
  exact (proj1 (check_failure_value Verifier.parseJSON Verifier.stringifyJSON
                  _ _ _ _ e Hrun Hcheck)).
Defined.

Lemma check_parse_error_witness :
  let response := Verifier.failure "UNEXPECTED" "connection refused" in
  Verifier.run (VerifierExamples.answering response)
    {| Verifier.cmd := "CHECK";
       Verifier.config := Verifier.stringifyJSON VerifierExamples.emptyConfig |}
  = Normal response
  /\ Verifier.parseJSON "connection refused"
     = Throw (SyntaxError "Unexpected token in JSON")
  /\ Verifier.check Verifier.parseJSON Verifier.stringifyJSON
       (VerifierExamples.answering response) VerifierExamples.emptyConfig
     = Throw (SyntaxError "Unexpected token in JSON").
Proof.
  intros response.
  assert (Verifier.run (VerifierExamples.answering response)
            {| Verifier.cmd := "CHECK";
               Verifier.config :=
                 Verifier.stringifyJSON VerifierExamples.emptyConfig |}
          = Normal response) as Hrun by reflexivity.
  assert (Verifier.parseJSON "connection refused"
          = Throw (SyntaxError "Unexpected token in JSON")) as Hparse
    by (vm_compute; reflexivity).
  split; [exact Hrun |]. split; [exact Hparse |].
  exact (proj1 (check_parse_error Verifier.parseJSON Verifier.stringifyJSON
                  _ _ _ _ _ Hrun Hparse) (or_introl eq_refl)).
Defined.

Lemma check_unexpected_without_msg_witness :
  let response := Verifier.failure "UNEXPECTED" "{}" in
  Verifier.run (VerifierExamples.answering response)
    {| Verifier.cmd := "CHECK";
       Verifier.config := Verifier.stringifyJSON VerifierExamples.emptyConfig |}
  = Normal response
  /\ Verifier.parseJSON "{}" = Normal (Verifier.JObject [])
  /\ Verifier.check Verifier.parseJSON Verifier.stringifyJSON
       (VerifierExamples.answering response) VerifierExamples.emptyConfig
     = Normal (inl {| Verifier.explanation := Verifier.JUndefined;
                      Verifier.errors := [];
                      Verifier.traces := Verifier.JUndefined |}).
Proof.
  intros response.
  assert (Verifier.run (VerifierExamples.answering response)
            {| Verifier.cmd := "CHECK";
               Verifier.config :=
                 Verifier.stringifyJSON VerifierExamples.emptyConfig |}
          = Normal response) as Hrun by reflexivity.
  assert (Verifier.parseJSON "{}" = Normal (Verifier.JObject [])) as Hparse
    by reflexivity.
  split; [exact Hrun |]. split; [exact Hparse |].
  apply (proj2 (check_unexpected_without_msg Verifier.parseJSON
                  Verifier.stringifyJSON _ _ _ _ Hrun Hparse)).
  - discriminate.
  - discriminate.
  - intros fields [= <-]. reflexivity.
Defined.
